(** * frodo: the empty-query cache and the asynchronous job scheduler

    A shallow embedding of two packages of the service:

    - [liveattrs/cache]: [EmptyQueryCache] with its reverse index from
      corpus IDs to cache keys ([mkKey], [Get], [Set], [Del]);
    - [jobs]: the [Actions] value with its job table, queue, dependency
      map, per-job update channels, the admission tick and the
      table-update consumer started by [NewActions].

    Go maps are [gmap]s, slices are lists, nil-able pointers and
    interface values are [option]s.  Code that can block on a lock or
    panic on a nil interface value returns an [outcome] (or an [option]
    whose [None] is the panic).  A mutex that wraps a whole function
    body makes that function one atomic state transformer; the queue
    lock is kept in the state because the admission tick does not
    release it on every path.  Parts of the repository that the
    embedded functions use but that are not among the sources are
    either parameters (type classes) or modelled from the
    specification, and marked so. *)

From Stdlib Require Import ZArith String Ascii.
From stdpp Require Import gmap strings list fin_maps.

Local Open Scope string_scope.
Local Open Scope list_scope.

(* ===================================================================== *)
(** * Part I: definitions                                                  *)
(* ===================================================================== *)

(** ** Package [cache] *)

Module Cache.

(** [strings.Join(append(aligned, corpusID), ":")] *)
Definition mkKey (corpusID : string) (aligned : list string) : string :=
  String.concat ":" (aligned ++ [corpusID]).

(** The colon-delimited segments of a key: the corpus IDs that a key
    built by [mkKey] lists (aligned corpora first, primary corpus
    last). *)
Fixpoint keyCorpora (key : string) : list string :=
  match key with
  | EmptyString => [EmptyString]
  | String a rest =>
      if Ascii.eqb a ":" then EmptyString :: keyCorpora rest
      else match keyCorpora rest with
           | [] => [String a EmptyString]
           | seg :: segs => String a seg :: segs
           end
  end.

(** A corpus ID that does not contain the key delimiter. *)
Fixpoint colonFree (s : string) : bool :=
  match s with
  | EmptyString => true
  | String a rest => negb (Ascii.eqb a ":") && colonFree rest
  end.

Section WithValues.
(** [AttrVal] stands for the values of [query.Attrs], [QueryAns] for
    [response.QueryAns]; the cache never looks inside either. *)
Context {AttrVal QueryAns : Type}.

(** Modelled from the spec: the declaration of [query.Payload] is not
    among the sources.  These are the two fields the cache reads: the
    attribute filter, a Go map, and the list of aligned corpora. *)
Record Payload := mkPayload {
  Attrs : gmap string AttrVal;
  Aligned : list string
}.

(** [data] holds [*response.QueryAns] pointers ([None] is a stored
    nil); [corpKeyDeps] is the reverse index. *)
Record EmptyQueryCache := mkCache {
  data : gmap string (option QueryAns);
  corpKeyDeps : gmap string (list string)
}.

Definition NewEmptyQueryCache : EmptyQueryCache :=
  {| data := ∅; corpKeyDeps := ∅ |}.

(** A nil result is a miss; indexing a Go map at an absent key yields
    nil as well. *)
Definition Get (qc : EmptyQueryCache) (corpusID : string) (qry : Payload)
  : option QueryAns :=
  if (0 <? size (Attrs qry))%nat then None
  else default None (data qc !! mkKey corpusID (Aligned qry)).

Definition setKeyCorpusDependency
    (deps : gmap string (list string)) (corpusID key : string)
  : gmap string (list string) :=
  match deps !! corpusID with
  | None => <[corpusID := [key]]> deps
  | Some keys =>
      if bool_decide (key ∈ keys) then deps (* already linked *)
      else <[corpusID := keys ++ [key]]> deps
  end.

(** The loop of [Set] over the aligned corpora. *)
Definition linkAligned (deps : gmap string (list string))
    (aligned : list string) (key : string) : gmap string (list string) :=
  foldl (fun deps alignedCorpusID =>
           setKeyCorpusDependency deps alignedCorpusID key) deps aligned.

Definition Set_ (qc : EmptyQueryCache) (corpusID : string) (qry : Payload)
    (value : option QueryAns) : EmptyQueryCache :=
  if (0 <? size (Attrs qry))%nat then qc
  else
    let cKey := mkKey corpusID (Aligned qry) in
    {| data := <[cKey := value]> (data qc);
       corpKeyDeps :=
         linkAligned (setKeyCorpusDependency (corpKeyDeps qc) corpusID cKey)
                     (Aligned qry) cKey |}.

(** The inner loop of [pruneKeyInDeps] on one bucket. *)
Definition pruneBucket (key : string) (keys : list string) : list string :=
  filter (fun k => k ≠ key) keys.

Definition countKey (key : string) (keys : list string) : nat :=
  length (filter (fun k => k = key) keys).

(** Every bucket is rebuilt without [key]; the second component is
    [totalRemoved].  The buckets are independent of one another, so
    the order in which Go ranges over the map does not matter. *)
Definition pruneKeyInDeps (deps : gmap string (list string)) (key : string)
  : gmap string (list string) * nat :=
  (pruneBucket key <$> deps,
   map_fold (fun _ keys total => (total + countKey key keys)%nat) 0%nat deps).

(** The loop of [Del] over [cInv], threading [data], [corpKeyDeps]
    and [totalPruned]. *)
Definition DelLoop (cInv : list string)
    (st : gmap string (option QueryAns) * gmap string (list string) * nat)
  : gmap string (option QueryAns) * gmap string (list string) * nat :=
  foldl (fun '(d, deps, totalPruned) key =>
           let '(deps', n) := pruneKeyInDeps deps key in
           (delete key d, deps', (totalPruned + n)%nat))
        st cInv.

(** [Del] with the [prunedKeyDeps] figure it logs. *)
Definition DelLogged (qc : EmptyQueryCache) (corpusID : string)
  : EmptyQueryCache * nat :=
  let cInv := default [] (corpKeyDeps qc !! corpusID) in
  let '(d, deps, totalPruned) := DelLoop cInv (data qc, corpKeyDeps qc, 0%nat) in
  ({| data := d; corpKeyDeps := delete corpusID deps |}, totalPruned).

Definition Del (qc : EmptyQueryCache) (corpusID : string) : EmptyQueryCache :=
  fst (DelLogged qc corpusID).

(** [key] is listed in the reverse-index bucket of [corpusID]. *)
Definition linked (deps : gmap string (list string)) (corpusID key : string)
  : Prop :=
  ∃ keys, deps !! corpusID = Some keys ∧ key ∈ keys.

(** The reverse-index invariant: every corpus ID listed in a stored
    key has that key in its bucket. *)
Definition depsInv (qc : EmptyQueryCache) : Prop :=
  ∀ key corpusID,
    is_Some (data qc !! key) →
    corpusID ∈ keyCorpora key →
    linked (corpKeyDeps qc) corpusID key.

(** No bucket lists a key twice. *)
Definition noDupBuckets (deps : gmap string (list string)) : Prop :=
  ∀ corpusID keys, deps !! corpusID = Some keys → NoDup keys.

(** The operations the cache exports to mutate it, and the states
    they reach from a fresh cache. *)
Inductive reachable : EmptyQueryCache → Prop :=
| reach_new : reachable NewEmptyQueryCache
| reach_Set qc corpusID qry value :
    reachable qc → reachable (Set_ qc corpusID qry value)
| reach_Del qc corpusID :
    reachable qc → reachable (Del qc corpusID).

End WithValues.

Arguments Payload : clear implicits.
Arguments EmptyQueryCache : clear implicits.

End Cache.

(** ** Package [jobs] *)

Module Jobs.

(** Go [error] values, represented by their message. *)
Definition error := string.

(** Modelled from the spec: the declaration of the interface
    [GeneralJobInfo] is not among the sources.  These are the methods
    that the functions embedded below call on a descriptor, with the
    signatures of those calls; [GetError] is [None] for a nil error. *)
Class GeneralJobInfo (J : Type) := {
  GetID : J → string;
  GetError : J → option error;
  IsFinished : J → bool;
  WithError : J → error → J;
  AsFinished : J → J
}.

(** Modelled from the spec: the methods of [JobsDeps], a Go map from a
    child job ID to a value of some type [P], are not among the sources.
    They are taken as parameters, with the signatures of their calls; a
    Go result [(bool, error)] is [inl err] when the error is non-nil. *)
Class JobsDepsOps (P : Type) := {
  Add : gmap string P → string → string → gmap string P;
  MustWait : gmap string P → string → error + bool;
  HasFailedParent : gmap string P → string → error + bool;
  SetParentFinished : gmap string P → string → bool → gmap string P
}.

(** Modelled from the spec: [clearOldJobs], the pruning policy of the
    job table, is not among the sources and is taken as a parameter. *)
Class OldJobsPolicy (J : Type) := {
  clearOldJobs : gmap string J → gmap string J
}.

(** What one run of a piece of goroutine code comes to: it completes, it
    blocks on a lock or a channel, or it panics on a nil interface. *)
Inductive outcome (A : Type) : Type :=
| Done (a : A)
| Blocked
| Panic.
Arguments Done {A} a.
Arguments Blocked {A}.
Arguments Panic {A}.

Section Queue.
Context {F J : Type} `{!GeneralJobInfo J}.

(** Modelled from the spec: [JobQueue] is not among the sources.  It is
    a FIFO of (worker function, initial descriptor) pairs; [Enqueue]
    appends to the tail. *)
Definition Enqueue (q : list (F * J)) (fn : F) (initialStatus : J)
  : list (F * J) :=
  q ++ [(fn, initialStatus)].

(** Modelled from the spec: [JobQueue.Dequeue] removes and returns the
    head, or fails with "empty" ([None]). *)
Definition Dequeue (q : list (F * J)) : option (F * J * list (F * J)) :=
  match q with
  | [] => None
  | (fn, initState) :: rest => Some (fn, initState, rest)
  end.

(** Modelled from the spec: [JobQueue.PeekID] returns the ID of the head
    without removing it, or fails with "empty" ([None]). *)
Definition PeekID (q : list (F * J)) : option string :=
  match q with
  | [] => None
  | (_, initState) :: _ => Some (GetID initState)
  end.

(** Modelled from the spec: [JobQueue.DelayNext] moves the head element
    to the tail. *)
Definition DelayNext (q : list (F * J)) : list (F * J) :=
  match q with
  | [] => []
  | head :: rest => rest ++ [head]
  end.

(** Modelled from the spec: [JobQueue.Size] is the current length. *)
Definition Size (q : list (F * J)) : nat := length q.

End Queue.

Section Scheduler.
(** [J]: job descriptors; [F]: worker functions ([*QueuedFunc]); [P]:
    the values of the dependency map. *)
Context {J F P : Type}.
Context `{!GeneralJobInfo J} `{!JobsDepsOps P} `{!OldJobsPolicy J}.

(** Modelled from the spec: the declaration of [Conf] is not among the
    sources.  These are the two options the embedded functions read;
    [MaxNumConcurrentJobs] is compared with a Go [int]. *)
Record Conf := mkConf {
  MaxNumConcurrentJobs : Z;
  StatusDataPath : string
}.

(** [TableUpdate] with its [action] tag as the constructor.  An
    [UpdateJob] event carries a descriptor received from an update
    channel; the [data] of a [FinishJob] event is the pump's last
    received item, nil ([None]) when it received none. *)
Inductive TableUpdate : Type :=
| tableActionUpdateJob (itemID : string) (data : J)
| tableActionFinishJob (itemID : string) (data : option J)
| tableActionClearOldJobs.

(** A [syncUpdates] channel made by [registerJob] together with the
    goroutine that drains it: [chanJob] is the [j.GetID()] it tags its
    events with, [pumpItem] its variable [item], [pumpDone] is set once
    it has sent the [FinishJob] event and returned. *)
Record UpdateChan := mkChan {
  chanJob : string;
  chanBuf : list J;
  chanClosed : bool;
  pumpItem : option J;
  pumpDone : bool
}.

(** [Actions].  [updateChans] lists the channels made so far, in the
    order of their creation; [workers] the goroutines started by
    [dequeueAndRunJob], each with the index of the channel it was
    handed.  [notificationRecipients] and the mails and log lines of the
    consumer are left out: no embedded function changes the fields below
    through them. *)
Record Actions := mkActions {
  conf : Conf;
  jobList : gmap string J;
  detachedJobs : gmap string J;
  jobQueue : list (F * J);
  jobQueueLock : bool;
  jobDeps : gmap string P;
  updateChans : list UpdateChan;
  workers : list (F * nat)
}.

Definition withJobList (a : Actions) (jl : gmap string J) : Actions :=
  mkActions (conf a) jl (detachedJobs a) (jobQueue a) (jobQueueLock a)
            (jobDeps a) (updateChans a) (workers a).

Definition withJobQueue (a : Actions) (q : list (F * J)) : Actions :=
  mkActions (conf a) (jobList a) (detachedJobs a) q (jobQueueLock a)
            (jobDeps a) (updateChans a) (workers a).

Definition withJobQueueLock (a : Actions) (held : bool) : Actions :=
  mkActions (conf a) (jobList a) (detachedJobs a) (jobQueue a) held
            (jobDeps a) (updateChans a) (workers a).

Definition withJobDeps (a : Actions) (deps : gmap string P) : Actions :=
  mkActions (conf a) (jobList a) (detachedJobs a) (jobQueue a)
            (jobQueueLock a) deps (updateChans a) (workers a).

Definition withUpdateChans (a : Actions) (chans : list UpdateChan) : Actions :=
  mkActions (conf a) (jobList a) (detachedJobs a) (jobQueue a)
            (jobQueueLock a) (jobDeps a) chans (workers a).

Definition withWorkers (a : Actions) (ws : list (F * nat)) : Actions :=
  mkActions (conf a) (jobList a) (detachedJobs a) (jobQueue a)
            (jobQueueLock a) (jobDeps a) (updateChans a) ws.

(** The loop of [createJobList] over the table.  Go ranges over a map
    in an unspecified order; [map_fold] fixes one. *)
Definition createJobList (a : Actions) (unfinishedOnly : bool) : list J :=
  map_fold (fun _ v ans =>
              if negb unfinishedOnly || negb (IsFinished v)
              then ans ++ [v] else ans)
           [] (jobList a).

(** The loop of [numOfUnfinishedJobs] over the table. *)
Definition countUnfinished (jl : gmap string J) : Z :=
  map_fold (fun _ v ans => if IsFinished v then ans else (ans + 1)%Z) 0%Z jl.

(** What one entry adds to that count. *)
Definition weight (j : J) : Z := if IsFinished j then 0%Z else 1%Z.

Definition numOfUnfinishedJobs (a : Actions) : Z :=
  countUnfinished (jobList a).

(** [EnqueueJob] and [EqueueJobAfter] take the queue lock first. *)
Definition EnqueueJob (a : Actions) (fn : F) (initialStatus : J)
  : outcome Actions :=
  if jobQueueLock a then Blocked
  else Done (withJobQueue a (Enqueue (jobQueue a) fn initialStatus)).

Definition EqueueJobAfter (a : Actions) (fn : F) (initialStatus : J)
    (parentJobID : string) : outcome Actions :=
  if jobQueueLock a then Blocked
  else
    let a1 := withJobQueue a (Enqueue (jobQueue a) fn initialStatus) in
    Done (withJobDeps a1 (Add (jobDeps a1) (GetID initialStatus) parentJobID)).

(** [make(chan GeneralJobInfo, 100)] with its pump not yet started. *)
Definition newChan (jobID : string) : UpdateChan :=
  {| chanJob := jobID; chanBuf := []; chanClosed := false;
     pumpItem := None; pumpDone := false |}.

(** [registerJob] returns the new channel, here its index. *)
Definition registerJob (a : Actions) (j : J) : Actions * nat :=
  let detached :=
    if bool_decide (is_Some (detachedJobs a !! GetID j))
    then delete (GetID j) (detachedJobs a)
    else detachedJobs a in
  (mkActions (conf a) (<[GetID j := j]> (jobList a)) detached (jobQueue a)
             (jobQueueLock a) (jobDeps a)
             (updateChans a ++ [newChan (GetID j)]) (workers a),
   length (updateChans a)).

(** One step of the goroutine started by [registerJob]: it forwards the
    next buffered item as an [UpdateJob] event, or, on a closed and
    drained channel, sends the [FinishJob] event and returns.  [None]:
    no event now, the pump waits on an open empty channel or has
    returned. *)
Definition pumpStep (c : UpdateChan) : option (TableUpdate * UpdateChan) :=
  if pumpDone c then None
  else match chanBuf c with
       | item :: rest =>
           Some (tableActionUpdateJob (chanJob c) item,
                 mkChan (chanJob c) rest (chanClosed c) (Some item) false)
       | [] =>
           if chanClosed c
           then Some (tableActionFinishJob (chanJob c) (pumpItem c),
                      mkChan (chanJob c) [] true (pumpItem c) true)
           else None
       end.

(** [ch <- item] on a buffered channel of capacity 100. *)
Definition chanSend (c : UpdateChan) (item : J) : outcome UpdateChan :=
  if chanClosed c then Panic
  else if (100 <=? length (chanBuf c))%nat then Blocked
  else Done (mkChan (chanJob c) (chanBuf c ++ [item]) false
                    (pumpItem c) (pumpDone c)).

Definition sendOn (a : Actions) (ch : nat) (item : J) : outcome Actions :=
  match updateChans a !! ch with
  | None => Panic
  | Some c =>
      match chanSend c item with
      | Done c' => Done (withUpdateChans a (<[ch := c']> (updateChans a)))
      | Blocked => Blocked
      | Panic => Panic
      end
  end.

Definition dequeueAndRunJob (a : Actions) : Actions :=
  match Dequeue (jobQueue a) with
  | None => a
  | Some (fn, initState, rest) =>
      let '(a1, updateJobChan) := registerJob (withJobQueue a rest) initState in
      withWorkers a1 (workers a1 ++ [(fn, updateJobChan)])
  end.

(** On an empty queue [initState] is nil and [initState.WithError]
    panics. *)
Definition dequeueJobAsFailed (a : Actions) (err : error) : outcome Actions :=
  match Dequeue (jobQueue a) with
  | None => Panic
  | Some (_, initState, rest) =>
      let finalState := WithError initState err in
      let '(a1, updateJobChan) := registerJob (withJobQueue a rest) finalState in
      sendOn a1 updateJobChan (AsFinished finalState)
  end.

(** The body of the [ticker2.C] case of the admission goroutine, without
    its locking. An [fmt.Errorf] is the concatenation it formats; in the
    failed-parent branch the [%w] operand is a nil error. *)
Definition admitHead (a : Actions) : outcome Actions :=
  match PeekID (jobQueue a) with
  | None => Done a (* empty queue *)
  | Some nextJobID =>
      match jobDeps a !! nextJobID with
      | Some _ => (* job with dependencies *)
          match MustWait (jobDeps a) nextJobID with
          | inl err =>
              dequeueJobAsFailed a
                ("failed to obtain waiting status for job " +:+ nextJobID
                   +:+ ": " +:+ err)
          | inr true => Done (withJobQueue a (DelayNext (jobQueue a)))
          | inr false =>
              match HasFailedParent (jobDeps a) nextJobID with
              | inl err =>
                  dequeueJobAsFailed a
                    ("failed to check parents of job " +:+ nextJobID
                       +:+ ": " +:+ err)
              | inr true =>
                  dequeueJobAsFailed a
                    ("failed to run job " +:+ nextJobID
                       +:+ " due to failed parent(s): %!w(<nil>)")
              | inr false => Done (dequeueAndRunJob a)
              end
          end
      | None => Done (dequeueAndRunJob a) (* job without deps *)
      end
  end.

(** One [ticker2.C] case: [Lock], the comparison with
    [MaxNumConcurrentJobs], the admission, and the [Unlock] that sits
    inside the [if]. *)
Definition admitTick (a : Actions) : outcome Actions :=
  if jobQueueLock a then Blocked
  else
    let a1 := withJobQueueLock a true in
    let numUnfinished := numOfUnfinishedJobs a1 in
    if (MaxNumConcurrentJobs (conf a1) >? numUnfinished)%Z then
      match admitHead a1 with
      | Done a2 => Done (withJobQueueLock a2 false)
      | Blocked => Blocked
      | Panic => Panic
      end
    else Done a1.

(** One iteration of the consumer of [tableUpdate]; [None] when it
    calls a method on a nil interface value: the table has no entry at
    [itemID], or a [FinishJob] event carries no data. *)
Definition applyTableUpdate (a : Actions) (upd : TableUpdate) : option Actions :=
  match upd with
  | tableActionUpdateJob itemID data =>
      match jobList a !! itemID with
      | None => None
      | Some cur =>
          match GetError cur, GetError data with
          | Some currErr, None =>
              Some (withJobList a (<[itemID := WithError data currErr]> (jobList a)))
          | _, _ => Some (withJobList a (<[itemID := data]> (jobList a)))
          end
      end
  | tableActionFinishJob itemID data =>
      match jobList a !! itemID with
      | None => None
      | Some cur =>
          let a1 := withJobList a (<[itemID := AsFinished cur]> (jobList a)) in
          match data with
          | None => None
          | Some d =>
              Some (withJobDeps a1
                      (SetParentFinished (jobDeps a1) itemID
                         (bool_decide (is_Some (GetError d)))))
          end
      end
  | tableActionClearOldJobs =>
      Some (withJobList a (clearOldJobs (jobList a)))
  end.

(** Modelled from the spec: [JobInfoList.Serialize] is not among the
    sources; it writes the list, as a JSON array, to the file at [path].
    The write is represented by the path and the list written. *)
Definition Serialize (jobs : list J) (path : string) : string * list J :=
  (path, jobs).

(** The goroutine of [goWaitExit], once the context is cancelled: the
    file it writes, or [None] when it only logs the warning. *)
Definition goWaitExit (a : Actions) : option (string * list J) :=
  if bool_decide (StatusDataPath (conf a) ≠ "")
  then Some (Serialize (createJobList a true) (StatusDataPath (conf a)))
  else None.

(** [NewActions]; [loaded] is what [LoadJobList] read from the status
    file, the empty list when there is no file. *)
Definition NewActions (c : Conf) (loaded : list (option J)) : Actions :=
  {| conf := c;
     jobList := ∅;
     detachedJobs :=
       foldl (fun detached job =>
                match job with
                | Some j => <[GetID j := j]> detached
                | None => detached
                end) ∅ loaded;
     jobQueue := [];
     jobQueueLock := false;
     jobDeps := ∅;
     updateChans := [];
     workers := [] |}.

(** What an admission step may change: at most one element leaves the
    queue and at most one descriptor is written to the table. *)
Definition admitsAtMostOne (a a' : Actions) : Prop :=
  conf a' = conf a ∧ jobQueueLock a' = jobQueueLock a ∧
  (jobList a' = jobList a ∨ ∃ j, jobList a' = <[GetID j := j]> (jobList a)) ∧
  (length (jobQueue a) ≤ S (length (jobQueue a')))%nat.

(** The scheduler steps: a call of [EnqueueJob] or [EqueueJobAfter], an
    admission tick, and the consumer applying a [FinishJob] or an
    [UpdateJob] event; the consumer applies an event whenever the table
    has an entry for its ID, finished or not.  The hourly
    [ClearOldJobs] event is not among the steps. *)
Inductive step : Actions → Actions → Prop :=
| step_enqueue a fn initialStatus a' :
    EnqueueJob a fn initialStatus = Done a' → step a a'
| step_enqueue_after a fn initialStatus parentJobID a' :
    EqueueJobAfter a fn initialStatus parentJobID = Done a' → step a a'
| step_tick a a' :
    admitTick a = Done a' → step a a'
| step_finish a itemID data a' :
    applyTableUpdate a (tableActionFinishJob itemID data) = Some a' →
    step a a'
| step_update a itemID data a' :
    applyTableUpdate a (tableActionUpdateJob itemID data) = Some a' →
    step a a'.

Inductive reachable (c : Conf) (loaded : list (option J)) : Actions → Prop :=
| reach_init : reachable c loaded (NewActions c loaded)
| reach_step a a' : reachable c loaded a → step a a' → reachable c loaded a'.

End Scheduler.

Arguments Conf : clear implicits.
Arguments TableUpdate : clear implicits.
Arguments UpdateChan : clear implicits.
Arguments Actions : clear implicits.

End Jobs.

(** ** Concrete descriptors, dependencies and states *)

Module Examples.
Import Cache Jobs.

(** *** The cache *)

Definition noFilter (aligned : list string) : Payload string :=
  {| Attrs := ∅; Aligned := aligned |}.

Definition filtered (aligned : list string) : Payload string :=
  {| Attrs := {["doc.genre" := "fiction"]}; Aligned := aligned |}.

Definition freshCache : EmptyQueryCache nat := NewEmptyQueryCache.

(** [Set("cs", aligned = ["en"; "de"], v)] on a fresh cache. *)
Definition csEnDe : EmptyQueryCache nat :=
  Set_ freshCache "cs" (noFilter ["en"; "de"]) (Some 7).

(** A [Set] with an aligned corpus ID that contains the key delimiter. *)
Definition colonCache : EmptyQueryCache nat :=
  Set_ freshCache "cs" (noFilter ["en:de"]) (Some 1).

(** *** Job descriptors *)

(** Modelled from the spec: the concrete descriptor types are not among
    the sources.  A descriptor carries identity, type tag, corpus, start
    time, a nullable error, the finished flag and a restart counter;
    [WithError] is a copy with the error attached, [AsFinished] a copy
    marked finished. *)
Record JobInfo := mkJob {
  ID : string;
  Type_ : string;
  CorpusID : string;
  Start : Z;
  Error : option error;
  Finished : bool;
  NumRestarts : Z
}.

#[export] Instance JobInfo_ops : GeneralJobInfo JobInfo := {|
  GetID := ID;
  GetError := Error;
  IsFinished := Finished;
  WithError j err :=
    mkJob (ID j) (Type_ j) (CorpusID j) (Start j) (Some err) (Finished j)
          (NumRestarts j);
  AsFinished j :=
    mkJob (ID j) (Type_ j) (CorpusID j) (Start j) (Error j) true
          (NumRestarts j)
|}.

(** *** Dependencies *)

Inductive ParentState : Type :=
| parentUnfinished
| parentFinishedOK
| parentFinishedFailed.

Definition isUnfinished (p : string * ParentState) : bool :=
  match snd p with parentUnfinished => true | _ => false end.

Definition isFailed (p : string * ParentState) : bool :=
  match snd p with parentFinishedFailed => true | _ => false end.

Definition markFinished (parent : string) (wasFailure : bool)
    (p : string * ParentState) : string * ParentState :=
  if String.eqb (fst p) parent
  then (fst p, if wasFailure then parentFinishedFailed else parentFinishedOK)
  else p.

(** Modelled from the spec: a child maps to its parents, each with its
    state; [MustWait] holds iff a parent is unfinished,
    [HasFailedParent] iff a parent finished with a failure,
    [SetParentFinished] marks the parent in every child's list. *)
#[export] Instance Parents_ops : JobsDepsOps (list (string * ParentState)) := {|
  Add deps child parent :=
    <[child := default [] (deps !! child) ++ [(parent, parentUnfinished)]]> deps;
  MustWait deps child := inr (existsb isUnfinished (default [] (deps !! child)));
  HasFailedParent deps child := inr (existsb isFailed (default [] (deps !! child)));
  SetParentFinished deps parent wasFailure :=
    map (markFinished parent wasFailure) <$> deps
|}.

(** A pruning policy under which no entry is old. *)
#[export] Instance keepAll : OldJobsPolicy JobInfo := {|
  clearOldJobs jl := jl
|}.

(** *** Scheduler states; worker functions are numbered *)

Definition State : Type := Actions JobInfo nat (list (string * ParentState)).

Definition job (id : string) : JobInfo :=
  mkJob id "liveattrs" "syn2020" 0 None false 0.

Definition conf2 : Conf := {| MaxNumConcurrentJobs := 2; StatusDataPath := "/tmp/jobs.json" |}.

Definition start : State := NewActions conf2 [].

(** Two jobs without parents wait in the queue; the table is empty. *)
Definition twoQueued : State := withJobQueue start [(1%nat, job "a"); (2%nat, job "b")].

(** ["a"] ran and finished without an error. *)
Definition aFinished : State := withJobList start {["a" := AsFinished (job "a")]}.

(** ["a"] failed and finished, ["b"] is running. *)
Definition aFailedBRunning : State :=
  withJobList start
    (<["a" := AsFinished (WithError (job "a") "disk full")]> {["b" := job "b"]}).

(** ["b"] waits in the queue for its parent ["a"] with the given state. *)
Definition childQueued (st : ParentState) : State :=
  withJobDeps (withJobQueue start [(2%nat, job "b"); (3%nat, job "c")])
              {["b" := [("a", st)]]}.

(** Three jobs without parents are enqueued one after the other. *)
Definition threeQueued : State :=
  withJobQueue start [(1%nat, job "a"); (2%nat, job "b"); (3%nat, job "c")].

(** The state after one admission tick; a tick that cannot complete
    leaves the state as it is. *)
Definition afterTick (s : State) : State :=
  match admitTick s with
  | Done s' => s'
  | _ => s
  end.

(** The state after the consumer applied an event; an event on which
    it panics leaves the state as it is. *)
Definition applied (s : State) (upd : TableUpdate JobInfo) : State :=
  match applyTableUpdate s upd with
  | Some s' => s'
  | None => s
  end.

(** The ID "a" is enqueued twice, with two worker functions, before the
    jobs "b" and "c". *)
Definition sameIdTwice : State :=
  withJobQueue start
    [(1%nat, job "a"); (2%nat, job "a"); (3%nat, job "b"); (4%nat, job "c")].

(** Two ticks admit both runs of "a"; the first worker then sends its
    descriptor and returns, so the pump of its channel sends an
    [UpdateJob] and a [FinishJob] event, and the entry of "a" is marked
    finished while the second worker still runs. *)
Definition firstRunDone : State :=
  applied (applied (afterTick (afterTick sameIdTwice))
                   (tableActionUpdateJob "a" (job "a")))
          (tableActionFinishJob "a" (Some (job "a"))).

(** Two more ticks admit "b" and "c": two entries are unfinished. *)
Definition atCeiling : State := afterTick (afterTick firstRunDone).

(** The second worker of "a" sends a progress descriptor. *)
Definition overCeiling : State :=
  applied atCeiling (tableActionUpdateJob "a" (job "a")).

End Examples.

(** ** Further measures of the cache *)

Module CacheIndex.
Import Cache.

(** The number of (corpus, key) links the reverse index holds. *)
Definition indexSize (deps : gmap string (list string)) : nat :=
  map_fold (fun _ keys total => (total + length keys)%nat) 0%nat deps.

Section WithValues.
Context {QueryAns : Type}.

(** Every key listed in a bucket of the reverse index is a stored
    key. *)
Definition noDangling (qc : EmptyQueryCache QueryAns) : Prop :=
  ∀ corpusID key, linked (corpKeyDeps qc) corpusID key →
                  is_Some (data qc !! key).

End WithValues.

End CacheIndex.

(** ** Package [jobs], further functions *)

Module JobsMore.
Import Jobs.

(** Modelled from the spec: three more methods of the interface
    [GeneralJobInfo], which is not among the sources, as
    [LastUnfinishedJobOfType] calls them.  [GetStartDT] is a point in
    time, an integer here, and [Before] on it is [<]. *)
Class JobInfoMeta (J : Type) := {
  GetType : J → string;
  GetCorpus : J → string;
  GetStartDT : J → Z
}.

(** Modelled from the spec: [FindJob] is not among the sources; it looks
    a job up in the table by the ID given in the request and returns nil
    ([None]) when it finds none.  It is taken as a parameter. *)
Class JobLookup (J : Type) := {
  FindJob : gmap string J → string → option J
}.

Section More.
Context {J F P : Type}.
Context `{!GeneralJobInfo J} `{!JobsDepsOps P} `{!OldJobsPolicy J}.
Context `{!JobInfoMeta J} `{!JobLookup J}.

(** [GetDetachedJobs]: the values of the registry, in the order Go
    ranges over it. *)
Definition GetDetachedJobs (a : Actions J F P) : list J :=
  map_fold (fun _ v ans => ans ++ [v]) [] (detachedJobs a).

(** [ClearDetachedJob] returns whether the job was in the registry. *)
Definition ClearDetachedJob (a : Actions J F P) (jobID : string)
  : Actions J F P * bool :=
  (mkActions (conf a) (jobList a) (delete jobID (detachedJobs a)) (jobQueue a)
             (jobQueueLock a) (jobDeps a) (updateChans a) (workers a),
   bool_decide (is_Some (detachedJobs a !! jobID))).

(** The loop of [LastUnfinishedJobOfType]; [tmp] is nil ([None]) until
    the first match. *)
Definition LastUnfinishedJobOfType (a : Actions J F P)
    (corpusID jobType : string) : option J * bool :=
  let tmp :=
    map_fold (fun _ v tmp =>
                if String.eqb (GetCorpus v) corpusID
                   && String.eqb (GetType v) jobType
                   && negb (IsFinished v)
                   && match tmp with
                      | None => true
                      | Some t => (GetStartDT v <? GetStartDT t)%Z
                      end
                then Some v else tmp)
             None (jobList a) in
  (tmp, bool_decide (is_Some tmp)).

(** An unfinished job of the given corpus and type. *)
Definition wanted (corpusID jobType : string) (j : J) : Prop :=
  GetCorpus j = corpusID ∧ GetType j = jobType ∧ IsFinished j = false.

(** The goroutine started by [registerJob], run for at most [fuel]
    steps: the events it sends, in order, and the channel it leaves. *)
Fixpoint pumpRun (fuel : nat) (c : UpdateChan J)
  : list (TableUpdate J) * UpdateChan J :=
  match fuel with
  | O => ([], c)
  | S fuel' =>
      match pumpStep c with
      | None => ([], c)
      | Some (upd, c') =>
          let '(events, c'') := pumpRun fuel' c' in (upd :: events, c'')
      end
  end.

(** The consumer of [tableUpdate] over a sequence of events; it stops
    at the first panic. *)
Fixpoint applyTableUpdates (a : Actions J F P) (events : list (TableUpdate J))
  : option (Actions J F P) :=
  match events with
  | [] => Some a
  | upd :: rest =>
      match applyTableUpdate a upd with
      | None => None
      | Some a' => applyTableUpdates a' rest
      end
  end.

(** [close(ch)] by the worker that holds the channel. *)
Definition chanClose (c : UpdateChan J) : UpdateChan J :=
  mkChan (chanJob c) (chanBuf c) true (pumpItem c) (pumpDone c).

(** The last item a pump has seen after a buffer: the last of the
    buffer, or what it held before. *)
Definition lastSeen (item : option J) (buf : list J) : option J :=
  match last buf with
  | Some x => Some x
  | None => item
  end.

(** The entry an [UpdateJob] event leaves: the incoming descriptor, with
    the stored error when it brings none itself. *)
Definition merged (cur data : J) : J :=
  match GetError cur, GetError data with
  | Some currErr, None => WithError data currErr
  | _, _ => data
  end.

(** The scheduler steps of a run in which no [UpdateJob] event arrives
    for an entry that is already marked finished: as [step], with the
    [UpdateJob] event applied to an entry not marked finished. *)
Inductive orderlyStep : Actions J F P → Actions J F P → Prop :=
| orderly_enqueue a fn initialStatus a' :
    EnqueueJob a fn initialStatus = Done a' → orderlyStep a a'
| orderly_enqueue_after a fn initialStatus parentJobID a' :
    EqueueJobAfter a fn initialStatus parentJobID = Done a' → orderlyStep a a'
| orderly_tick a a' :
    admitTick a = Done a' → orderlyStep a a'
| orderly_finish a itemID data a' :
    applyTableUpdate a (tableActionFinishJob itemID data) = Some a' →
    orderlyStep a a'
| orderly_update a itemID data cur a' :
    jobList a !! itemID = Some cur → IsFinished cur = false →
    applyTableUpdate a (tableActionUpdateJob itemID data) = Some a' →
    orderlyStep a a'.

(** Every started worker holds a channel that exists, and no two
    workers hold the same channel. *)
Definition workersOwnChannels (a : Actions J F P) : Prop :=
  (∀ fn ch, (fn, ch) ∈ workers a → (ch < length (updateChans a))%nat) ∧
  NoDup (snd <$> workers a).

(** *** The notification roster

    The handlers work on the job table and on the map
    [notificationRecipients]; a response is the HTTP status with the
    body that matters. *)

Inductive response : Type :=
| RespRegistered (status : Z) (registered : bool)
| RespRecipients (status : Z) (recipients : list string)
| RespError (status : Z) (message : string).

Definition AddNotification (jl : gmap string J)
    (recipientsOf : gmap string (list string)) (jobID address : string)
  : gmap string (list string) * response :=
  match FindJob jl jobID with
  | Some _ =>
      let recipients :=
        match recipientsOf !! jobID with
        | None => [address]
        | Some recipients =>
            if existsb (fun addr => String.eqb addr address) recipients
            then recipients
            else recipients ++ [address]
        end in
      (<[jobID := recipients]> recipientsOf, RespRegistered 200 true)
  | None => (recipientsOf, RespError 404 "job not found")
  end.

Definition GetNotifications (jl : gmap string J)
    (recipientsOf : gmap string (list string)) (jobID : string) : response :=
  match FindJob jl jobID with
  | Some job =>
      RespRecipients 200 (default [] (recipientsOf !! GetID job))
  | None => RespError 404 "job not found"
  end.

Definition CheckNotification (jl : gmap string J)
    (recipientsOf : gmap string (list string)) (jobID address : string)
  : response :=
  match FindJob jl jobID with
  | Some _ =>
      let registered :=
        match recipientsOf !! jobID with
        | Some recipients =>
            existsb (fun addr => String.eqb addr address) recipients
        | None => false
        end in
      if registered then RespRegistered 200 true
      else RespRegistered 404 false
  | None => RespError 404 "job not found"
  end.

(** The loop of [RemoveNotification]: the first occurrence of the
    address is cut out. *)
Fixpoint removeFirst (address : string) (recipients : list string)
  : list string :=
  match recipients with
  | [] => []
  | addr :: rest =>
      if String.eqb addr address then rest
      else addr :: removeFirst address rest
  end.

Definition RemoveNotification (jl : gmap string J)
    (recipientsOf : gmap string (list string)) (jobID address : string)
  : gmap string (list string) * response :=
  match FindJob jl jobID with
  | Some _ =>
      (match recipientsOf !! jobID with
       | Some recipients =>
           <[jobID := removeFirst address recipients]> recipientsOf
       | None => recipientsOf
       end,
       RespRegistered 200 false)
  | None => (recipientsOf, RespError 404 "job not found")
  end.

(** The rosters that [AddNotification] and [RemoveNotification] build
    from the empty map of [NewActions], over any job tables. *)
Inductive rosterReachable : gmap string (list string) → Prop :=
| roster_new : rosterReachable ∅
| roster_add jl recipientsOf jobID address :
    rosterReachable recipientsOf →
    rosterReachable (fst (AddNotification jl recipientsOf jobID address))
| roster_remove jl recipientsOf jobID address :
    rosterReachable recipientsOf →
    rosterReachable (fst (RemoveNotification jl recipientsOf jobID address)).

End More.

End JobsMore.

(** ** Package [subcmixer]: expression joins *)

Module Subcmixer.

Section Expressions.
(** Modelled from the spec: [CategoryExpression] and the interface
    [AbstractExpression] are not among the sources.  [C] stands for the
    category expressions, [O] for values of any other dynamic type; an
    expression is told apart by its dynamic type, as the type switch of
    [collectAtomsRecursive] does, and expressions are finite trees. *)
Context {C O : Type}.

#[warnings="-register-all"] Inductive AbstractExpression : Type :=
| JoinExpr (Items : list AbstractExpression) (Op : string)
| CategoryExpr (c : C)
| OtherExpr (o : O).

(** The values [collectAtomsRecursive] puts into its slice of [any]: a
    pointer to a [CategoryExpression], or the address of a variable that
    holds such a pointer. *)
Inductive anyValue : Type :=
| AnyCategory (c : C)
| AnyCategoryRef (c : C).

(** The loop over the items of a join returns in its first iteration;
    in the case of a category expression the element is [&tCurrent],
    the address of the switch variable. *)
Fixpoint collectAtomsRecursive (current : AbstractExpression) : list anyValue :=
  match current with
  | JoinExpr Items _ =>
      match Items with
      | item :: _ => [] ++ collectAtomsRecursive item
      | [] => []
      end
  | CategoryExpr c => [AnyCategoryRef c]
  | OtherExpr _ => []
  end.

(** [GetAtoms] of the join with the given items and operator: an
    element is the category expression when the type assertion to a
    pointer to [CategoryExpression] holds, nil ([None]) otherwise. *)
Definition GetAtoms (Items : list AbstractExpression) (Op : string)
  : list (option C) :=
  map (fun v => match v with
                | AnyCategory c => Some c
                | AnyCategoryRef _ => None
                end)
      (collectAtomsRecursive (JoinExpr Items Op)).

Definition Negate (Items : list AbstractExpression) (Op : string)
  : AbstractExpression :=
  let newOp :=
    if String.eqb Op "OR" then "AND"
    else if String.eqb Op "AND" then "OR"
    else "" in
  JoinExpr Items newOp.

(** [Negate] applied to an expression that is a join. *)
Definition negated (e : AbstractExpression) : option AbstractExpression :=
  match e with
  | JoinExpr Items Op => Some (Negate Items Op)
  | _ => None
  end.

End Expressions.

Arguments AbstractExpression : clear implicits.
Arguments anyValue : clear implicits.

End Subcmixer.

(** ** Package [dictionary/actions]: the arguments of n-gram generation *)

Module Ngrams.
Import Jobs.

(** Modelled from the spec: [SupportedTagset.Validate] is not among the
    sources; it is taken as a parameter, with nil as [None]. *)
Class TagsetOps := {
  tagsetValidate : string → option error
}.

(** Modelled from the spec: the declaration of [freqdb.QSAttributes] is
    not among the sources.  These are the four column numbers, Go
    [int]s, that [Validate] reads; [Lemma] is spelled [Lemma_]. *)
Record QSAttributes := mkQSAttributes {
  Lemma_ : Z;
  Sublemma : Z;
  Word : Z;
  Tag : Z
}.

Record reqArgs := mkReqArgs {
  ColMapping : option QSAttributes;
  PosTagset : string
}.

(** [tmp[k]++] on a [map[int]int]. *)
Definition increment (k : Z) (tmp : gmap Z Z) : gmap Z Z :=
  <[k := (default 0 (tmp !! k) + 1)%Z]> tmp.

Definition Validate `{!TagsetOps} (args : reqArgs) : option error :=
  match tagsetValidate (PosTagset args) with
  | Some err => Some ("failed to validate tagset: " +:+ err)
  | None =>
      match ColMapping args with
      | Some cm =>
          let tmp :=
            increment (Tag cm)
              (increment (Word cm)
                 (increment (Sublemma cm) (increment (Lemma_ cm) ∅))) in
          if (size tmp <? 4)%nat
          then Some "each of the lemma, sublemma, word, tag must be mapped to a unique table column"
          else None
      | None => None
      end
  end.

End Ngrams.

(** ** Package [liveattrs/actions]: grouping of bibliography items *)

Module BibGrouping.

(** Modelled from the spec: the declaration of [response.ListedValue]
    is not among the sources.  These are its fields as [getAttrValues]
    and [groupBibItems] use them; [Count] and [Grouping] are Go [int]s,
    taken as 64-bit. *)
Record ListedValue := mkListedValue {
  ID : string;
  ShortLabel : string;
  Label : string;
  Count : Z;
  Grouping : Z
}.

(** The values of [QueryAns.AttrValues], a map to [any], by the dynamic
    types that [getAttrValues] tells apart: a list of listed values, an
    [int], anything else. *)
Inductive attrValue : Type :=
| ListedValues (items : list ListedValue)
| Total (n : Z)
| OtherValue.

(** The value of a 64-bit signed Go [int] after an overflow. *)
Definition wrapInt (x : Z) : Z := ((x + 2 ^ 63) mod 2 ^ 64 - 2 ^ 63)%Z.

(** The body of the loop of [groupBibItems].  [grouping] maps a label
    to (a pointer to) the first item seen with it; [val] and
    [grouping[item.Label]] are that same item, so [Count += val.Count]
    adds the count of the stored item to itself, and of [item] only the
    label is read. *)
Definition groupItem (grouping : gmap string ListedValue) (item : ListedValue)
  : gmap string ListedValue :=
  let grouping1 :=
    match grouping !! Label item with
    | Some val =>
        <[Label item :=
            mkListedValue (ID val) (ShortLabel val) (Label val)
                          (wrapInt (Count val + Count val))
                          (wrapInt (Grouping val + 1))]> grouping
    | None => <[Label item := item]> grouping
    end in
  match grouping1 !! Label item with
  | Some v =>
      if (Grouping v >? 1)%Z
      then <[Label item :=
               mkListedValue ("@" +:+ Label v) (ShortLabel v) (Label v)
                             (Count v) (Grouping v)]> grouping1
      else grouping1
  | None => grouping1
  end.

(** [groupBibItems] on the map [data.AttrValues]: nothing happens
    unless the entry at [bibLabel] is a list of listed values; the new
    list holds the values of [grouping] in the order Go ranges over
    it. *)
Definition groupBibItems (AttrValues : gmap string attrValue)
    (bibLabel : string) : gmap string attrValue :=
  match AttrValues !! bibLabel with
  | Some (ListedValues tEntry) =>
      let grouping := foldl groupItem ∅ tEntry in
      <[bibLabel :=
          ListedValues (map_fold (fun _ v entry => entry ++ [v]) [] grouping)]>
        AttrValues
  | _ => AttrValues
  end.

(** What the items that share one label are grouped into, from the
    first of them and their number: a single item stays as it is;
    otherwise the ID is "@" with the label, the grouping is the number
    of items, and the count is the count of the first item doubled once
    for every further item. *)
Definition groupedEntry (sameLabel : list ListedValue) : option ListedValue :=
  match sameLabel with
  | [] => None
  | [first] => Some first
  | first :: further =>
      Some (mkListedValue ("@" +:+ Label first) (ShortLabel first) (Label first)
              (wrapInt (Count first * 2 ^ Z.of_nat (length further)))
              (1 + Z.of_nat (length further)))
  end.

End BibGrouping.

(** ** Further concrete inputs *)

Module MoreExamples.
Import Cache Jobs JobsMore Examples.

#[export] Instance JobInfo_meta : JobInfoMeta JobInfo := {|
  GetType := Type_;
  GetCorpus := CorpusID;
  GetStartDT := Start
|}.

(** A [FindJob] that looks the ID up as it is. *)
#[export] Instance exactLookup : JobLookup JobInfo := {|
  FindJob jl jobID := jl !! jobID
|}.

(** A job of type "liveattrs" on "syn2020" started at the given time. *)
Definition startedAt (id : string) (start : Z) : JobInfo :=
  mkJob id "liveattrs" "syn2020" start None false 0.

(** Three unfinished jobs of one corpus and type and a finished one
    that started before them all. *)
Definition fourJobs : State :=
  withJobList Examples.start
    (<["a" := startedAt "a" 30]>
       (<["b" := startedAt "b" 10]>
          (<["c" := startedAt "c" 20]>
             {["d" := AsFinished (startedAt "d" 5)]}))).

(** The state [NewActions] makes of a loaded list with a nil entry. *)
Definition recovered : State :=
  NewActions conf2 [Some (job "a"); None; Some (job "b")].

(** Two admission ticks after three jobs were enqueued: two jobs run,
    one waits, the queue lock is free. *)
Definition twoRunning : State := afterTick (afterTick threeQueued).

(** The job table with job "a" alone, and a roster for it. *)
Definition oneJob : gmap string JobInfo := {["a" := job "a"]}.

Definition rosterOfA : gmap string (list string) :=
  fst (AddNotification oneJob
         (fst (AddNotification oneJob ∅ "a" "ann@example.org"))
         "a" "bob@example.org").

End MoreExamples.

Module OtherExamples.
Import Subcmixer Ngrams BibGrouping.

(** A join of two category expressions, numbered 1 and 2. *)
Definition twoCategories : list (AbstractExpression nat unit) :=
  [CategoryExpr 1%nat; CategoryExpr 2%nat].

(** A tagset check that knows two tagsets and the empty one. *)
#[export] Instance knownTagsets : TagsetOps := {|
  tagsetValidate tagset :=
    if bool_decide (tagset ∈ [""; "pp_tagset"; "ud"]) then None
    else Some ("unsupported tagset " +:+ tagset)
|}.

Definition listed (id label : string) (count : Z) : ListedValue :=
  mkListedValue id label label count 1.

(** Three items with the label "Hamlet" and one with "Faust". *)
Definition bibItems : list ListedValue :=
  [listed "h1" "Hamlet" 5; listed "f1" "Faust" 7;
   listed "h2" "Hamlet" 100; listed "h3" "Hamlet" 1000].

Definition bibValues : gmap string attrValue :=
  <["doc.title" := ListedValues bibItems]> {["doc.year" := Total 12]}.

End OtherExamples.

(* ===================================================================== *)
(** * Part II: properties                                                  *)
(* ===================================================================== *)

Section CacheFacts.
Import Cache.
Context {AttrVal QueryAns : Type}.
Implicit Types (qc : EmptyQueryCache QueryAns) (qry : Payload AttrVal).

(** *** Keys and their corpus IDs *)

Lemma keyCorpora_nonempty (s : string) : keyCorpora s ≠ [].
Proof.
  destruct s as [|a s]; simpl; [done|].
  destruct (Ascii.eqb a ":"); [done|]. by destruct (keyCorpora s).
Qed.

Lemma keyCorpora_colonFree (s : string) :
  colonFree s = true → keyCorpora s = [s].
Proof.
  induction s as [|a s IH]; simpl; [done|].
  destruct (Ascii.eqb a ":"); simpl; [done|].
  intros H. by rewrite IH.
Qed.

Lemma keyCorpora_segment (s rest : string) :
  colonFree s = true →
  keyCorpora (s +:+ ":" +:+ rest) = s :: keyCorpora rest.
Proof.
  induction s as [|a s IH]; simpl; [done|].
  destruct (Ascii.eqb a ":"); simpl; [done|].
  intros H. by rewrite IH.
Qed.

Lemma keyCorpora_concat (ids : list string) :
  ids ≠ [] → Forall (fun c => colonFree c = true) ids →
  keyCorpora (String.concat ":" ids) = ids.
Proof.
  induction ids as [|c ids IH]; [done|].
  intros _ Hall. apply Forall_cons in Hall as [Hc Hall].
  destruct ids as [|c' ids].
  - simpl. by apply keyCorpora_colonFree.
  - change (String.concat ":" (c :: c' :: ids))
      with (c +:+ ":" +:+ String.concat ":" (c' :: ids)).
    rewrite keyCorpora_segment; [|done]. by rewrite IH.
Qed.

Lemma keyCorpora_mkKey (corpusID : string) (aligned : list string) :
  colonFree corpusID = true →
  Forall (fun c => colonFree c = true) aligned →
  keyCorpora (mkKey corpusID aligned) = aligned ++ [corpusID].
Proof.
  intros Hc Hal. unfold mkKey. apply keyCorpora_concat.
  - by destruct aligned.
  - apply Forall_app. split; [done|]. by apply Forall_singleton.
Qed.

(** *** Linking a key to a corpus *)

Lemma setKeyCorpusDependency_linked deps corpusID key :
  linked (setKeyCorpusDependency deps corpusID key) corpusID key.
Proof.
  unfold setKeyCorpusDependency, linked.
  destruct (deps !! corpusID) as [keys|] eqn:E.
  - case_bool_decide as Hin.
    + eauto.
    + exists (keys ++ [key]). rewrite lookup_insert_eq. split; [done|].
      set_solver.
  - exists [key]. rewrite lookup_insert_eq. split; [done|]. set_solver.
Qed.

Lemma setKeyCorpusDependency_mono deps corpusID key c k :
  linked deps c k → linked (setKeyCorpusDependency deps corpusID key) c k.
Proof.
  intros (ks & Hks & Hk). unfold setKeyCorpusDependency, linked.
  destruct (deps !! corpusID) as [keys|] eqn:E.
  - case_bool_decide as Hin; [eauto|].
    destruct (decide (corpusID = c)) as [->|Hne].
    + rewrite lookup_insert_eq. exists (keys ++ [key]). split; [done|].
      rewrite E in Hks. injection Hks as ->. set_solver.
    + rewrite lookup_insert_ne; eauto.
  - destruct (decide (corpusID = c)) as [->|Hne]; [congruence|].
    rewrite lookup_insert_ne; eauto.
Qed.

Lemma setKeyCorpusDependency_noop deps corpusID key :
  linked deps corpusID key → setKeyCorpusDependency deps corpusID key = deps.
Proof.
  intros (ks & Hks & Hk). unfold setKeyCorpusDependency. rewrite Hks.
  by rewrite bool_decide_eq_true_2.
Qed.

Lemma setKeyCorpusDependency_noDup deps corpusID key :
  noDupBuckets deps → noDupBuckets (setKeyCorpusDependency deps corpusID key).
Proof.
  intros Hnd c ks. unfold setKeyCorpusDependency.
  destruct (deps !! corpusID) as [keys|] eqn:E.
  - case_bool_decide as Hin; [apply Hnd|].
    destruct (decide (corpusID = c)) as [->|Hne].
    + rewrite lookup_insert_eq. intros [= <-].
      apply NoDup_app. split; [by eapply Hnd|]. split.
      * intros x Hx Hx'. apply list_elem_of_singleton in Hx'. by subst.
      * apply NoDup_singleton.
    + rewrite lookup_insert_ne; [apply Hnd | done].
  - destruct (decide (corpusID = c)) as [->|Hne].
    + rewrite lookup_insert_eq. intros [= <-]. apply NoDup_singleton.
    + rewrite lookup_insert_ne; [apply Hnd | done].
Qed.

Lemma linkAligned_mono aligned deps key c k :
  linked deps c k → linked (linkAligned deps aligned key) c k.
Proof.
  revert deps. induction aligned as [|a aligned IH]; intros deps H; [done|].
  simpl. apply IH. by apply setKeyCorpusDependency_mono.
Qed.

Lemma linkAligned_linked aligned deps key c :
  c ∈ aligned → linked (linkAligned deps aligned key) c key.
Proof.
  revert deps. induction aligned as [|a aligned IH]; intros deps H.
  - by apply elem_of_nil in H.
  - simpl. apply elem_of_cons in H as [->|H]; [|by apply IH].
    apply linkAligned_mono, setKeyCorpusDependency_linked.
Qed.

Lemma linkAligned_noop aligned deps key :
  (∀ c, c ∈ aligned → linked deps c key) → linkAligned deps aligned key = deps.
Proof.
  induction aligned as [|a aligned IH]; intros H; [done|].
  simpl. rewrite setKeyCorpusDependency_noop; [|apply H; set_solver].
  apply IH. intros c Hc. apply H. set_solver.
Qed.

Lemma linkAligned_noDup aligned deps key :
  noDupBuckets deps → noDupBuckets (linkAligned deps aligned key).
Proof.
  revert deps. induction aligned as [|a aligned IH]; intros deps H; [done|].
  simpl. by apply IH, setKeyCorpusDependency_noDup.
Qed.

Lemma Set_unfold qc corpusID qry value :
  size (Attrs qry) = 0%nat →
  Set_ qc corpusID qry value =
    {| data := <[mkKey corpusID (Aligned qry) := value]> (data qc);
       corpKeyDeps :=
         linkAligned
           (setKeyCorpusDependency (corpKeyDeps qc) corpusID
              (mkKey corpusID (Aligned qry)))
           (Aligned qry) (mkKey corpusID (Aligned qry)) |}.
Proof. intros H. unfold Set_. by rewrite H. Qed.

Lemma Set_filtered qc corpusID qry value :
  size (Attrs qry) ≠ 0%nat → Set_ qc corpusID qry value = qc.
Proof.
  intros H. unfold Set_.
  destruct (Nat.ltb_spec 0 (size (Attrs qry))); [done | lia].
Qed.

Lemma Set_linked qc corpusID qry value c :
  size (Attrs qry) = 0%nat →
  c ∈ Aligned qry ++ [corpusID] →
  linked (corpKeyDeps (Set_ qc corpusID qry value)) c
         (mkKey corpusID (Aligned qry)).
Proof.
  intros H Hc. rewrite Set_unfold by done. simpl.
  apply elem_of_app in Hc as [Hc|Hc].
  - by apply linkAligned_linked.
  - apply list_elem_of_singleton in Hc as ->.
    apply linkAligned_mono, setKeyCorpusDependency_linked.
Qed.

Lemma Set_mono qc corpusID qry value c k :
  linked (corpKeyDeps qc) c k →
  linked (corpKeyDeps (Set_ qc corpusID qry value)) c k.
Proof.
  intros H. destruct (decide (size (Attrs qry) = 0%nat)) as [E|E].
  - rewrite Set_unfold by done. simpl.
    by apply linkAligned_mono, setKeyCorpusDependency_mono.
  - by rewrite Set_filtered.
Qed.

(** *** Pruning and [Del] *)

Lemma pruneKeyInDeps_linked deps key c k :
  linked (fst (pruneKeyInDeps deps key)) c k ↔ linked deps c k ∧ k ≠ key.
Proof.
  unfold linked, pruneKeyInDeps, pruneBucket. simpl. rewrite lookup_fmap. split.
  - intros (ks & Hks & Hk). destruct (deps !! c) as [ks0|]; [|done].
    simpl in Hks. injection Hks as <-.
    apply list_elem_of_filter in Hk as [Hne Hk]. eauto.
  - intros [(ks & Hks & Hk) Hne]. rewrite Hks. simpl.
    eexists. split; [done|]. by apply list_elem_of_filter.
Qed.

Lemma pruneKeyInDeps_noDup deps key :
  noDupBuckets deps → noDupBuckets (fst (pruneKeyInDeps deps key)).
Proof.
  intros Hnd c ks. unfold pruneKeyInDeps, pruneBucket. simpl.
  rewrite lookup_fmap. destruct (deps !! c) as [ks0|] eqn:E; [|done].
  simpl. intros [= <-]. apply NoDup_filter. by eapply Hnd.
Qed.

Lemma DelLoop_cons key cInv d deps total :
  DelLoop (QueryAns := QueryAns) (key :: cInv) (d, deps, total) =
  DelLoop cInv (delete key d, fst (pruneKeyInDeps deps key),
                (total + snd (pruneKeyInDeps deps key))%nat).
Proof. reflexivity. Qed.

Lemma DelLoop_data cInv d deps total key :
  fst (fst (DelLoop (QueryAns := QueryAns) cInv (d, deps, total))) !! key =
  if decide (key ∈ cInv) then None else d !! key.
Proof.
  revert d deps total.
  induction cInv as [|x cInv IH]; intros d deps total.
  - simpl. destruct (decide (key ∈ [])) as [H|]; [|done].
    by apply elem_of_nil in H.
  - rewrite DelLoop_cons, IH.
    destruct (decide (key ∈ cInv)) as [Hin|Hnin];
      destruct (decide (key ∈ x :: cInv)) as [Hin'|Hnin']; try done.
    + exfalso. apply Hnin'. set_solver.
    + apply elem_of_cons in Hin' as [->|]; [|done]. apply lookup_delete_eq.
    + apply lookup_delete_ne. intros ->. apply Hnin'. set_solver.
Qed.

Lemma DelLoop_linked cInv d deps total c k :
  linked (snd (fst (DelLoop (QueryAns := QueryAns) cInv (d, deps, total)))) c k
  ↔ linked deps c k ∧ k ∉ cInv.
Proof.
  revert d deps total.
  induction cInv as [|x cInv IH]; intros d deps total.
  - simpl. split; [|tauto]. intros H. split; [done|]. apply not_elem_of_nil.
  - rewrite DelLoop_cons, IH, pruneKeyInDeps_linked, not_elem_of_cons. tauto.
Qed.

Lemma DelLoop_noDup cInv d deps total :
  noDupBuckets deps →
  noDupBuckets (snd (fst (DelLoop (QueryAns := QueryAns) cInv (d, deps, total)))).
Proof.
  revert d deps total.
  induction cInv as [|x cInv IH]; intros d deps total H; [done|].
  rewrite DelLoop_cons. by apply IH, pruneKeyInDeps_noDup.
Qed.

Lemma Del_unfold qc corpusID :
  Del qc corpusID =
    let st := DelLoop (default [] (corpKeyDeps qc !! corpusID))
                      (data qc, corpKeyDeps qc, 0%nat) in
    {| data := fst (fst st); corpKeyDeps := delete corpusID (snd (fst st)) |}.
Proof.
  unfold Del, DelLogged.
  by destruct (DelLoop _ _) as [[d deps] total].
Qed.

Lemma Del_data qc corpusID key :
  data (Del qc corpusID) !! key =
  if decide (key ∈ default [] (corpKeyDeps qc !! corpusID)) then None
  else data qc !! key.
Proof. rewrite Del_unfold. simpl. apply DelLoop_data. Qed.

Lemma Del_linked qc corpusID c k :
  linked (corpKeyDeps (Del qc corpusID)) c k ↔
  c ≠ corpusID ∧ linked (corpKeyDeps qc) c k ∧
  k ∉ default [] (corpKeyDeps qc !! corpusID).
Proof.
  rewrite Del_unfold. simpl. rewrite <- DelLoop_linked.
  unfold linked. split.
  - intros (ks & Hks & Hk). apply lookup_delete_Some in Hks as [Hne Hks]. eauto.
  - intros (Hne & ks & Hks & Hk). exists ks.
    by rewrite lookup_delete_ne.
Qed.

Lemma Del_bucket_gone qc corpusID :
  corpKeyDeps (Del qc corpusID) !! corpusID = None.
Proof. rewrite Del_unfold. simpl. apply lookup_delete_eq. Qed.

Lemma Del_noDup qc corpusID :
  noDupBuckets (corpKeyDeps qc) → noDupBuckets (corpKeyDeps (Del qc corpusID)).
Proof.
  intros Hnd c ks. rewrite Del_unfold. simpl.
  intros [Hne Hks]%lookup_delete_Some. clear Hne. revert c ks Hks.
  by apply DelLoop_noDup.
Qed.

Lemma depsInv_new : depsInv (NewEmptyQueryCache (QueryAns := QueryAns)).
Proof. intros key c [v Hv]. simpl in Hv. by rewrite lookup_empty in Hv. Qed.

Lemma Set_preserves_depsInv qc corpusID qry value :
  colonFree corpusID = true →
  Forall (fun c => colonFree c = true) (Aligned qry) →
  depsInv qc → depsInv (Set_ qc corpusID qry value).
Proof.
  intros Hc Hal Hinv.
  destruct (decide (size (Attrs qry) = 0%nat)) as [E|E];
    [|by rewrite Set_filtered].
  intros key c Hstored Hin.
  destruct (decide (key = mkKey corpusID (Aligned qry))) as [->|Hne].
  - rewrite keyCorpora_mkKey in Hin by done. by apply Set_linked.
  - apply Set_mono. apply Hinv; [|done].
    rewrite Set_unfold in Hstored by done. simpl in Hstored.
    by rewrite lookup_insert_ne in Hstored.
Qed.

Lemma Del_preserves_depsInv qc corpusID :
  depsInv qc → depsInv (Del qc corpusID).
Proof.
  intros Hinv key c Hstored Hin. rewrite Del_data in Hstored.
  destruct (decide (key ∈ _)) as [|Hnin]; [by destruct Hstored|].
  specialize (Hinv key c Hstored Hin).
  apply Del_linked. split_and!; [|done|done].
  intros ->. destruct Hinv as (ks & Hks & Hk).
  rewrite Hks in Hnin. simpl in Hnin. done.
Qed.

Lemma Set_idempotent qc corpusID qry value :
  Set_ (Set_ qc corpusID qry value) corpusID qry value =
  Set_ qc corpusID qry value.
Proof.
  destruct (decide (size (Attrs qry) = 0%nat)) as [E|E];
    [|by rewrite !Set_filtered].
  rewrite (Set_unfold (Set_ _ _ _ _)) by done.
  pose proof (fun c => Set_linked qc corpusID qry value c E) as Hl.
  rewrite setKeyCorpusDependency_noop by (apply Hl; set_solver).
  rewrite linkAligned_noop by (intros c Hc; apply Hl; set_solver).
  rewrite Set_unfold by done. simpl. by rewrite insert_insert_eq.
Qed.

Lemma reachable_noDup qc :
  reachable (AttrVal := AttrVal) qc → noDupBuckets (corpKeyDeps qc).
Proof.
  induction 1 as [|qc corpusID qry value _ IH|qc corpusID _ IH].
  - intros c ks. simpl. by rewrite lookup_empty.
  - destruct (decide (size (Attrs qry) = 0%nat)) as [E|E].
    + rewrite Set_unfold by done. simpl.
      by apply linkAligned_noDup, setKeyCorpusDependency_noDup.
    + by rewrite Set_filtered.
  - by apply Del_noDup.
Qed.

(** *** The claims about the cache *)

(** C6 (as amended).  A state that satisfies the reverse-index invariant
    still satisfies it after any [Set] whose primary and aligned corpus
    IDs contain no colon, and after any [Del]. *)
Theorem Set_Del_preserve_depsInv qc :
  depsInv qc →
  (∀ corpusID qry value,
      colonFree corpusID = true →
      Forall (fun c => colonFree c = true) (Aligned qry) →
      depsInv (Set_ qc corpusID qry value)) ∧
  (∀ corpusID, depsInv (Del qc corpusID)).
Proof.
  intros Hinv. split.
  - intros corpusID qry value Hc Hal. by apply Set_preserves_depsInv.
  - intros corpusID. by apply Del_preserves_depsInv.
Qed.

(** C7 (as amended).  After [Del corpusID], every key that was listed in
    the bucket of [corpusID] is gone from the stored data and from every
    bucket, and [corpusID] has no bucket.  If the state satisfied the
    reverse-index invariant, a later [Get] of a query without attribute
    filter, with colon-free corpus IDs, that names [corpusID] as primary
    or aligned corpus is a miss. *)
Theorem Del_evicts qc corpusID :
  (∀ key, key ∈ default [] (corpKeyDeps qc !! corpusID) →
     data (Del qc corpusID) !! key = None ∧
     ∀ c keys, corpKeyDeps (Del qc corpusID) !! c = Some keys → key ∉ keys) ∧
  corpKeyDeps (Del qc corpusID) !! corpusID = None ∧
  (depsInv qc →
   ∀ primary qry,
     size (Attrs qry) = 0%nat →
     colonFree primary = true →
     Forall (fun c => colonFree c = true) (Aligned qry) →
     corpusID ∈ Aligned qry ++ [primary] →
     Get (Del qc corpusID) primary qry = None).
Proof.
  split_and!.
  - intros key Hkey. split.
    + rewrite Del_data. by rewrite decide_True.
    + intros c keys Hks Hin.
      assert (linked (corpKeyDeps (Del qc corpusID)) c key) as Hl
        by (exists keys; done).
      apply Del_linked in Hl as (_ & _ & Hnin). done.
  - apply Del_bucket_gone.
  - intros Hinv primary qry Hattrs Hp Hal Hin.
    unfold Get. rewrite Hattrs. simpl. rewrite Del_data.
    destruct (decide (_ ∈ _)) as [|Hnin]; [done|].
    destruct (data qc !! mkKey primary (Aligned qry)) as [v|] eqn:E; [|done].
    exfalso. apply Hnin.
    destruct (Hinv (mkKey primary (Aligned qry)) corpusID) as (ks & Hks & Hk).
    + by rewrite E.
    + by rewrite keyCorpora_mkKey.
    + by rewrite Hks.
Qed.

(** C8.  A query with a non-empty attribute map always misses, whatever
    the cache holds. *)
Theorem Get_filtered_query_misses qc corpusID qry :
  (0 < size (Attrs qry))%nat → Get qc corpusID qry = None.
Proof.
  intros H. unfold Get.
  destruct (Nat.ltb_spec 0 (size (Attrs qry))); [done | lia].
Qed.

(** C10.  In every state the cache reaches from a fresh one by [Set] and
    [Del], no bucket of the reverse index lists a key twice; and in any
    state a second [Set] with the same arguments changes nothing. *)
Theorem buckets_noDup_and_Set_idempotent :
  (∀ qc, reachable (AttrVal := AttrVal) qc →
     ∀ corpusID keys, corpKeyDeps qc !! corpusID = Some keys → NoDup keys) ∧
  (∀ qc corpusID qry value,
     Set_ (Set_ qc corpusID qry value) corpusID qry value =
     Set_ qc corpusID qry value).
Proof.
  split.
  - intros qc Hr. by apply reachable_noDup.
  - apply Set_idempotent.
Qed.

End CacheFacts.

Section JobsFacts.
Import Jobs.
Context {J F P : Type}.
Context `{!GeneralJobInfo J} `{!JobsDepsOps P} `{!OldJobsPolicy J}.
Implicit Types (a : Actions J F P) (jl : gmap string J) (j : J).

Local Open Scope Z_scope.

(** *** Counting the unfinished entries *)

Lemma countUnfinished_empty : countUnfinished (∅ : gmap string J) = 0.
Proof. unfold countUnfinished. by rewrite map_fold_empty. Qed.

Lemma countUnfinished_insert_fresh jl id j :
  jl !! id = None →
  countUnfinished (<[id := j]> jl) = countUnfinished jl + weight j.
Proof.
  intros Hid. unfold countUnfinished, weight.
  rewrite map_fold_insert_L; [|intros|done].
  - destruct (IsFinished j); lia.
  - destruct (IsFinished z1), (IsFinished z2); lia.
Qed.

Lemma countUnfinished_lookup jl id j :
  jl !! id = Some j →
  countUnfinished jl = countUnfinished (delete id jl) + weight j.
Proof.
  intros Hid. rewrite <- (insert_delete_id jl id j) at 1 by done.
  apply countUnfinished_insert_fresh, lookup_delete_eq.
Qed.

Lemma countUnfinished_insert jl id j :
  countUnfinished (<[id := j]> jl) = countUnfinished (delete id jl) + weight j.
Proof.
  rewrite <- insert_delete_eq.
  apply countUnfinished_insert_fresh, lookup_delete_eq.
Qed.

Lemma weight_bounds j : 0 ≤ weight j ≤ 1.
Proof. unfold weight. destruct (IsFinished j); lia. Qed.

Lemma countUnfinished_delete_le jl id :
  countUnfinished (delete id jl) ≤ countUnfinished jl.
Proof.
  destruct (jl !! id) as [j|] eqn:E.
  - rewrite (countUnfinished_lookup jl id j E). pose proof (weight_bounds j). lia.
  - by rewrite delete_id.
Qed.

Lemma countUnfinished_nonneg jl : 0 ≤ countUnfinished jl.
Proof.
  unfold countUnfinished.
  apply (map_fold_weak_ind (fun r _ => 0 ≤ r)); [lia|].
  intros id j m r _ Hr. destruct (IsFinished j); lia.
Qed.

Lemma countUnfinished_insert_le jl id j :
  countUnfinished (<[id := j]> jl) ≤ countUnfinished jl + 1.
Proof.
  rewrite countUnfinished_insert.
  pose proof (countUnfinished_delete_le jl id). pose proof (weight_bounds j). lia.
Qed.

Lemma countUnfinished_insert_finished jl id j :
  IsFinished j = true →
  countUnfinished (<[id := j]> jl) ≤ countUnfinished jl.
Proof.
  intros Hj. rewrite countUnfinished_insert. unfold weight. rewrite Hj.
  pose proof (countUnfinished_delete_le jl id). lia.
Qed.

Lemma countUnfinished_overwrite jl id cur j :
  jl !! id = Some cur → IsFinished cur = false →
  countUnfinished (<[id := j]> jl) ≤ countUnfinished jl.
Proof.
  intros Hid Hcur. rewrite countUnfinished_insert.
  rewrite (countUnfinished_lookup jl id cur Hid).
  unfold weight at 2. rewrite Hcur. pose proof (weight_bounds j). lia.
Qed.

(** *** Registering, running and failing the head of the queue *)

Lemma dequeueAndRunJob_empty a :
  jobQueue a = [] → dequeueAndRunJob a = a.
Proof. intros H. unfold dequeueAndRunJob. by rewrite H. Qed.

Lemma dequeueAndRunJob_head a fn initState rest :
  jobQueue a = (fn, initState) :: rest →
  dequeueAndRunJob a =
    withWorkers (fst (registerJob (withJobQueue a rest) initState))
                (workers a ++ [(fn, length (updateChans a))]).
Proof. intros H. unfold dequeueAndRunJob. by rewrite H. Qed.

Lemma dequeueJobAsFailed_empty a err :
  jobQueue a = [] → dequeueJobAsFailed a err = Panic.
Proof. intros H. unfold dequeueJobAsFailed. by rewrite H. Qed.

Lemma dequeueJobAsFailed_head a fn initState rest err :
  jobQueue a = (fn, initState) :: rest →
  dequeueJobAsFailed a err =
    let finalState := WithError initState err in
    let a1 := fst (registerJob (withJobQueue a rest) finalState) in
    Done (withUpdateChans a1
            (updateChans a ++
               [mkChan (GetID finalState) [AsFinished finalState]
                       false None false])).
Proof.
  intros H. unfold dequeueJobAsFailed. rewrite H. simpl.
  unfold sendOn. simpl. rewrite list_lookup_middle by done. simpl.
  unfold withUpdateChans. simpl.
  rewrite insert_app_r_alt by lia. by rewrite Nat.sub_diag.
Qed.

(** *** The admission step *)

Lemma withJobQueueLock_same a : withJobQueueLock a (jobQueueLock a) = a.
Proof. by destruct a. Qed.

Lemma dequeueAndRunJob_lock a held :
  dequeueAndRunJob (withJobQueueLock a held) =
  withJobQueueLock (dequeueAndRunJob a) held.
Proof.
  destruct (jobQueue a) as [|[fn initState] rest] eqn:Hq.
  - by rewrite !dequeueAndRunJob_empty.
  - by rewrite (dequeueAndRunJob_head a fn initState rest),
      (dequeueAndRunJob_head (withJobQueueLock a held) fn initState rest).
Qed.

Lemma dequeueJobAsFailed_lock a held err :
  dequeueJobAsFailed (withJobQueueLock a held) err =
  match dequeueJobAsFailed a err with
  | Done a' => Done (withJobQueueLock a' held)
  | Blocked => Blocked
  | Panic => Panic
  end.
Proof.
  destruct (jobQueue a) as [|[fn initState] rest] eqn:Hq.
  - by rewrite !dequeueJobAsFailed_empty.
  - by rewrite (dequeueJobAsFailed_head a fn initState rest),
      (dequeueJobAsFailed_head (withJobQueueLock a held) fn initState rest).
Qed.

Lemma admitHead_lock a held :
  admitHead (withJobQueueLock a held) =
  match admitHead a with
  | Done a' => Done (withJobQueueLock a' held)
  | Blocked => Blocked
  | Panic => Panic
  end.
Proof.
  unfold admitHead. simpl.
  destruct (PeekID (jobQueue a)) as [nextJobID|]; [|done].
  destruct (jobDeps a !! nextJobID); [|by rewrite dequeueAndRunJob_lock].
  destruct (MustWait (jobDeps a) nextJobID) as [err|[|]];
    [apply dequeueJobAsFailed_lock|done|].
  destruct (HasFailedParent (jobDeps a) nextJobID) as [err|[|]];
    [apply dequeueJobAsFailed_lock..|by rewrite dequeueAndRunJob_lock].
Qed.

Lemma dequeueAndRunJob_atMostOne a : admitsAtMostOne a (dequeueAndRunJob a).
Proof.
  destruct (jobQueue a) as [|[fn initState] rest] eqn:Hq.
  - rewrite dequeueAndRunJob_empty by done. unfold admitsAtMostOne.
    split_and!; [done|done|by left|lia].
  - rewrite (dequeueAndRunJob_head a fn initState rest) by done.
    unfold admitsAtMostOne. simpl. rewrite Hq. simpl.
    split_and!; [done|done|eauto|lia].
Qed.

Lemma dequeueJobAsFailed_atMostOne a err a' :
  dequeueJobAsFailed a err = Done a' → admitsAtMostOne a a'.
Proof.
  destruct (jobQueue a) as [|[fn initState] rest] eqn:Hq.
  - by rewrite dequeueJobAsFailed_empty.
  - rewrite (dequeueJobAsFailed_head a fn initState rest) by done.
    intros [= <-]. unfold admitsAtMostOne. simpl. rewrite Hq. simpl.
    split_and!; [done|done|eauto|lia].
Qed.

Lemma admitHead_atMostOne a a' : admitHead a = Done a' → admitsAtMostOne a a'.
Proof.
  unfold admitHead.
  destruct (PeekID (jobQueue a)) as [nextJobID|].
  2: { intros [= <-]. unfold admitsAtMostOne.
       split_and!; [done|done|by left|lia]. }
  destruct (jobDeps a !! nextJobID).
  2: { intros [= <-]. apply dequeueAndRunJob_atMostOne. }
  destruct (MustWait (jobDeps a) nextJobID) as [err|[|]].
  - apply dequeueJobAsFailed_atMostOne.
  - intros [= <-]. unfold admitsAtMostOne. simpl.
    split_and!; [done|done|by left|].
    destruct (jobQueue a); simpl; [lia|]. rewrite length_app. simpl. lia.
  - destruct (HasFailedParent (jobDeps a) nextJobID) as [err|[|]].
    + apply dequeueJobAsFailed_atMostOne.
    + apply dequeueJobAsFailed_atMostOne.
    + intros [= <-]. apply dequeueAndRunJob_atMostOne.
Qed.

Lemma admitTick_below a :
  jobQueueLock a = false →
  numOfUnfinishedJobs a < MaxNumConcurrentJobs (conf a) →
  admitTick a = admitHead a.
Proof.
  intros Hlock Hlt. unfold admitTick. rewrite Hlock. simpl.
  change (numOfUnfinishedJobs (withJobQueueLock a true))
    with (numOfUnfinishedJobs a).
  rewrite (proj2 (Z.gtb_lt _ _)) by done.
  rewrite admitHead_lock. destruct (admitHead a) as [a'| |] eqn:E; [|done..].
  apply admitHead_atMostOne in E as (_ & Hl & _).
  rewrite Hlock in Hl. rewrite <- Hl.
  change (withJobQueueLock (withJobQueueLock a' true) (jobQueueLock a'))
    with (withJobQueueLock a' (jobQueueLock a')).
  by rewrite withJobQueueLock_same.
Qed.

Lemma admitTick_full a :
  jobQueueLock a = false →
  MaxNumConcurrentJobs (conf a) ≤ numOfUnfinishedJobs a →
  admitTick a = Done (withJobQueueLock a true).
Proof.
  intros Hlock Hle. unfold admitTick. rewrite Hlock. simpl.
  change (numOfUnfinishedJobs (withJobQueueLock a true))
    with (numOfUnfinishedJobs a).
  destruct (Z.gtb_spec (MaxNumConcurrentJobs (conf a)) (numOfUnfinishedJobs a));
    [lia | done].
Qed.

(** *** The consumer of table updates *)

Lemma applyTableUpdate_update a itemID cur data :
  jobList a !! itemID = Some cur →
  applyTableUpdate a (tableActionUpdateJob itemID data) =
    Some (withJobList a
            (<[itemID := match GetError cur, GetError data with
                         | Some currErr, None => WithError data currErr
                         | _, _ => data
                         end]> (jobList a))).
Proof.
  intros H. simpl. rewrite H.
  by destruct (GetError cur), (GetError data).
Qed.

Lemma applyTableUpdate_finish a itemID data a' :
  applyTableUpdate a (tableActionFinishJob itemID data) = Some a' →
  conf a' = conf a ∧
  ∃ cur, jobList a !! itemID = Some cur ∧
         jobList a' = <[itemID := AsFinished cur]> (jobList a).
Proof.
  simpl. destruct (jobList a !! itemID) as [cur|]; [|done].
  destruct data as [d|]; [|done]. intros [= <-]. eauto.
Qed.

(** *** The snapshot list *)

Lemma createJobList_foldr a unfinishedOnly :
  createJobList a unfinishedOnly =
  foldr (fun '(_, v) ans =>
           if negb unfinishedOnly || negb (IsFinished v)
           then ans ++ [v] else ans)
        [] (map_to_list (jobList a)).
Proof.
  unfold createJobList. rewrite map_fold_foldr.
  induction (map_to_list (jobList a)) as [|[id v] l IH]; [done|].
  simpl. by rewrite IH.
Qed.

Lemma createJobList_elem a unfinishedOnly j :
  j ∈ createJobList a unfinishedOnly ↔
  ∃ id, jobList a !! id = Some j ∧
        (unfinishedOnly = true → IsFinished j = false).
Proof.
  rewrite createJobList_foldr.
  transitivity (∃ id, (id, j) ∈ map_to_list (jobList a) ∧
                      (unfinishedOnly = true → IsFinished j = false)).
  2: { by setoid_rewrite elem_of_map_to_list. }
  induction (map_to_list (jobList a)) as [|[id v] l IH]; simpl.
  - split; [by intros ?%elem_of_nil|]. by intros (id & ?%elem_of_nil & _).
  - destruct (negb unfinishedOnly || negb (IsFinished v)) eqn:E.
    + rewrite elem_of_app, list_elem_of_singleton, IH. split.
      * intros [(id' & Hin & Hf)| ->].
        -- exists id'. split; [by right | done].
        -- exists id. split; [by left|].
           intros ->. simpl in E. by destruct (IsFinished v).
      * intros (id' & Hin & Hf).
        apply elem_of_cons in Hin as [[= -> ->]|Hin]; [by right|].
        left. eauto.
    + rewrite IH. split.
      * intros (id' & Hin & Hf). exists id'. split; [by right | done].
      * intros (id' & Hin & Hf).
        apply elem_of_cons in Hin as [[= -> ->]|Hin]; [|eauto].
        destruct unfinishedOnly; [|done]. simpl in E.
        rewrite Hf in E by done. done.
Qed.

Lemma createJobList_length a :
  Z.of_nat (length (createJobList a true)) = numOfUnfinishedJobs a.
Proof.
  rewrite createJobList_foldr.
  unfold numOfUnfinishedJobs, countUnfinished. rewrite map_fold_foldr.
  induction (map_to_list (jobList a)) as [|[id v] l IH]; [done|].
  simpl. rewrite <- IH. destruct (IsFinished v); simpl; [done|].
  rewrite length_app. simpl. lia.
Qed.

(** *** Steps and the concurrency ceiling *)

Lemma step_conf a a' : step a a' → conf a' = conf a.
Proof.
  destruct 1 as [a fn st a' E|a fn st parent a' E|a a' E
                |a itemID data a' E|a itemID data a' E].
  - unfold EnqueueJob in E. destruct (jobQueueLock a); [done|].
    by injection E as <-.
  - unfold EqueueJobAfter in E. destruct (jobQueueLock a); [done|].
    by injection E as <-.
  - destruct (jobQueueLock a) eqn:Hlock.
    { unfold admitTick in E. by rewrite Hlock in E. }
    destruct (Z.lt_ge_cases (numOfUnfinishedJobs a)
                (MaxNumConcurrentJobs (conf a))) as [Hlt|Hge].
    + rewrite admitTick_below in E by done.
      by apply admitHead_atMostOne in E as (? & _).
    + rewrite admitTick_full in E by done. by injection E as <-.
  - by apply applyTableUpdate_finish in E as (? & _).
  - simpl in E. destruct (jobList a !! itemID) as [cur|]; [|done].
    by destruct (GetError cur), (GetError data); injection E as <-.
Qed.

Lemma reachable_conf c loaded a : reachable c loaded a → conf a = c.
Proof.
  induction 1 as [|a a' _ IH Hstep]; [done|].
  by rewrite (step_conf a a').
Qed.

(** Overwriting a finished entry with an unfinished descriptor adds one
    to the count. *)
Lemma countUnfinished_unfinish jl id cur j :
  jl !! id = Some cur → IsFinished cur = true → IsFinished j = false →
  countUnfinished (<[id := j]> jl) = countUnfinished jl + 1.
Proof.
  intros Hid Hcur Hj. rewrite countUnfinished_insert.
  rewrite (countUnfinished_lookup jl id cur Hid).
  unfold weight. rewrite Hcur, Hj. lia.
Qed.

(** *** The claims about the scheduler *)

(** C1 (as amended).  When the entry of a job is marked finished, a
    later non-finished [UpdateJob] event for the same ID is not ignored:
    the entry is replaced by the incoming descriptor, with the stored
    error re-attached when the entry has one and the incoming descriptor
    has none; unless an error is re-attached, the entry is afterwards the
    incoming, non-finished descriptor. *)
Theorem UpdateJob_replaces_finished_entry a itemID cur data :
  jobList a !! itemID = Some cur →
  IsFinished cur = true →
  IsFinished data = false →
  ∃ a', applyTableUpdate a (tableActionUpdateJob itemID data) = Some a' ∧
        jobList a' !! itemID =
          Some (match GetError cur, GetError data with
                | Some currErr, None => WithError data currErr
                | _, _ => data
                end) ∧
        (GetError cur = None ∨ is_Some (GetError data) →
         jobList a' !! itemID = Some data ∧
         jobList a' !! itemID ≠ jobList a !! itemID).
Proof.
  intros Hcur Hfin Hnf. eexists. split_and!.
  - by apply applyTableUpdate_update.
  - simpl. apply lookup_insert_eq.
  - simpl. rewrite lookup_insert_eq, Hcur. intros Hno.
    assert (match GetError cur, GetError data with
            | Some currErr, None => WithError data currErr
            | _, _ => data
            end = data) as ->.
    { destruct Hno as [->|[e ->]]; [done|]. by destruct (GetError cur). }
    split; [done|]. intros [= ->]. congruence.
Qed.

(** C2 (as amended).  A tick that takes the queue lock while the count
    of unfinished entries is below [MaxNumConcurrentJobs] and the queue
    is non-empty takes one decision about the head and ends: a head
    without dependencies is dequeued and run; a head with dependencies
    is delayed when it must wait, dequeued as failed when a parent
    failed, dequeued and run otherwise.  At most the head leaves the
    queue and at most one descriptor enters the table in one tick. *)
Theorem admitTick_decides_head_once a fn initState rest :
  jobQueueLock a = false →
  numOfUnfinishedJobs a < MaxNumConcurrentJobs (conf a) →
  jobQueue a = (fn, initState) :: rest →
  (jobDeps a !! GetID initState = None →
     admitTick a = Done (dequeueAndRunJob a)) ∧
  (is_Some (jobDeps a !! GetID initState) →
     (MustWait (jobDeps a) (GetID initState) = inr true →
        admitTick a = Done (withJobQueue a (rest ++ [(fn, initState)]))) ∧
     (MustWait (jobDeps a) (GetID initState) = inr false →
      HasFailedParent (jobDeps a) (GetID initState) = inr true →
        admitTick a =
          dequeueJobAsFailed a
            ("failed to run job " +:+ GetID initState
               +:+ " due to failed parent(s): %!w(<nil>)")) ∧
     (MustWait (jobDeps a) (GetID initState) = inr false →
      HasFailedParent (jobDeps a) (GetID initState) = inr false →
        admitTick a = Done (dequeueAndRunJob a))) ∧
  (∀ a', admitTick a = Done a' →
     (length rest ≤ length (jobQueue a'))%nat ∧
     (jobList a' = jobList a ∨ ∃ j, jobList a' = <[GetID j := j]> (jobList a))).
Proof.
  intros Hlock Hlt Hq. rewrite admitTick_below by done.
  unfold admitHead. rewrite Hq. simpl. split_and!.
  - by intros ->.
  - intros [p Hp]. rewrite Hp. split_and!.
    + by intros ->.
    + by intros -> ->.
    + by intros -> ->.
  - intros a' E.
    assert (admitHead a = Done a') as Ha by (unfold admitHead; by rewrite Hq).
    apply admitHead_atMostOne in Ha as (_ & _ & Hjl & Hlen).
    rewrite Hq in Hlen. simpl in Hlen. split; [lia | done].
Qed.

(** C3.  What [dequeueJobAsFailed] does to a non-empty queue: the head
    is dequeued, the descriptor with the error is registered, its
    finished copy is put on the new update channel, and the channel is
    left open and handed to no worker; the pump forwards that one
    descriptor as an [UpdateJob] event and then waits on the open
    channel, sending no [FinishJob] event. *)
Theorem dequeueJobAsFailed_leaves_channel_open a fn initState rest err :
  jobQueue a = (fn, initState) :: rest →
  ∃ a' ch,
    dequeueJobAsFailed a err = Done a' ∧
    jobQueue a' = rest ∧
    jobList a' =
      <[GetID (WithError initState err) := WithError initState err]> (jobList a) ∧
    updateChans a' = updateChans a ++ [ch] ∧
    workers a' = workers a ∧
    chanBuf ch = [AsFinished (WithError initState err)] ∧
    chanClosed ch = false ∧
    ∃ ch',
      pumpStep ch =
        Some (tableActionUpdateJob (GetID (WithError initState err))
                (AsFinished (WithError initState err)), ch') ∧
      chanClosed ch' = false ∧ pumpDone ch' = false ∧ pumpStep ch' = None.
Proof.
  intros Hq. eexists _, _. split.
  { by apply (dequeueJobAsFailed_head a fn initState rest). }
  simpl. split_and!; try done.
  eexists. split_and!; done.
Qed.

(** C4.  An [UpdateJob] event for an ID with a stored entry: when the
    stored entry carries an error and the incoming descriptor carries
    none, the entry becomes the incoming descriptor with the stored
    error attached; otherwise it becomes the incoming descriptor.  No
    other entry changes. *)
Theorem UpdateJob_sticky_error a itemID cur data :
  jobList a !! itemID = Some cur →
  ∃ a', applyTableUpdate a (tableActionUpdateJob itemID data) = Some a' ∧
        (∀ currErr, GetError cur = Some currErr → GetError data = None →
           jobList a' !! itemID = Some (WithError data currErr)) ∧
        (GetError cur = None ∨ is_Some (GetError data) →
           jobList a' !! itemID = Some data) ∧
        (∀ other, other ≠ itemID → jobList a' !! other = jobList a !! other).
Proof.
  intros Hcur. eexists. split_and!.
  - by apply applyTableUpdate_update.
  - intros currErr -> ->. simpl. apply lookup_insert_eq.
  - simpl. rewrite lookup_insert_eq. intros [->|[e ->]]; [done|].
    by destruct (GetError cur).
  - intros other Hne. simpl. by rewrite lookup_insert_ne.
Qed.

(** C5.  The count of unfinished table entries does not stay at or
    below [MaxNumConcurrentJobs]: when the consumer applies an
    [UpdateJob] event with an unfinished descriptor to an entry that is
    marked finished and carries no error, the entry is replaced, the
    state reached is a reachable one, and the count is one higher than
    before; from a reachable state with the count at the ceiling the
    count is then above the ceiling. *)
Theorem UpdateJob_on_finished_entry_exceeds_ceiling c loaded a itemID cur data :
  reachable c loaded a →
  jobList a !! itemID = Some cur →
  IsFinished cur = true →
  GetError cur = None →
  IsFinished data = false →
  MaxNumConcurrentJobs c ≤ numOfUnfinishedJobs a →
  ∃ a',
    applyTableUpdate a (tableActionUpdateJob itemID data) = Some a' ∧
    reachable c loaded a' ∧
    jobList a' = <[itemID := data]> (jobList a) ∧
    numOfUnfinishedJobs a' = numOfUnfinishedJobs a + 1 ∧
    MaxNumConcurrentJobs (conf a') < numOfUnfinishedJobs a'.
Proof.
  intros Hreach Hcur Hfin Herr Hdata Hge.
  assert (applyTableUpdate a (tableActionUpdateJob itemID data) =
          Some (withJobList a (<[itemID := data]> (jobList a)))) as Happly.
  { rewrite (applyTableUpdate_update a itemID cur data Hcur). by rewrite Herr. }
  assert (numOfUnfinishedJobs (withJobList a (<[itemID := data]> (jobList a)))
          = numOfUnfinishedJobs a + 1) as Hcount.
  { unfold numOfUnfinishedJobs. simpl.
    by apply (countUnfinished_unfinish (jobList a) itemID cur data). }
  exists (withJobList a (<[itemID := data]> (jobList a))).
  split_and!; [exact Happly| |done|exact Hcount|].
  - apply (reach_step c loaded a); [exact Hreach|].
    by apply (step_update a itemID data).
  - rewrite Hcount. simpl. rewrite (reachable_conf c loaded a Hreach). lia.
Qed.

(** C9.  When the context is cancelled and a status path is configured,
    the list written to that path holds exactly the table entries not
    marked finished, each once; without a path nothing is written. *)
Theorem goWaitExit_snapshot a :
  (StatusDataPath (conf a) ≠ "" →
   ∃ snapshot,
     goWaitExit a = Some (StatusDataPath (conf a), snapshot) ∧
     (∀ j, j ∈ snapshot ↔
           ∃ id, jobList a !! id = Some j ∧ IsFinished j = false) ∧
     Z.of_nat (length snapshot) = numOfUnfinishedJobs a) ∧
  (StatusDataPath (conf a) = "" → goWaitExit a = None).
Proof.
  unfold goWaitExit. split.
  - intros Hpath. rewrite bool_decide_eq_true_2 by done.
    eexists. split_and!; [done| |apply createJobList_length].
    intros j. rewrite createJobList_elem.
    split; intros (id & Hid & Hf); exists id; split; auto.
  - intros Hpath. by rewrite bool_decide_eq_false_2 by (by intros ?).
Qed.

End JobsFacts.
(** ** The claims on concrete inputs *)

Section Concrete.
Import Cache Jobs Examples.
Local Open Scope Z_scope.

Example mkKey_order : mkKey "cs" ["en"; "de"] = "en:de:cs".
Proof. reflexivity. Qed.

Example keyCorpora_order : keyCorpora "en:de:cs" = ["en"; "de"; "cs"].
Proof. reflexivity. Qed.

Example csEnDe_index :
  corpKeyDeps csEnDe =
  <["cs" := ["en:de:cs"]]> (<["en" := ["en:de:cs"]]> {["de" := ["en:de:cs"]]}).
Proof. vm_compute. reflexivity. Qed.

(** A finished entry is overwritten by a later non-finished update. *)
Lemma UpdateJob_not_ignored_after_finish :
  jobList aFinished !! "a" = Some (AsFinished (job "a")) ∧
  IsFinished (AsFinished (job "a")) = true ∧
  IsFinished (job "a") = false ∧
  ∃ a', applyTableUpdate aFinished (tableActionUpdateJob "a" (job "a")) = Some a' ∧
        jobList a' !! "a" = Some (job "a") ∧
        jobList a' !! "a" ≠ jobList aFinished !! "a".
Proof.
  split_and!; [by vm_compute..|].
  eexists. split_and!; [by vm_compute..|]. vm_compute. discriminate.
Qed.

Lemma UpdateJob_replaces_finished_entry_witness :
  ∃ a', applyTableUpdate aFinished (tableActionUpdateJob "a" (job "a")) = Some a' ∧
        jobList a' !! "a" = Some (job "a").
Proof.
  destruct (UpdateJob_replaces_finished_entry aFinished "a"
              (AsFinished (job "a")) (job "a"))
    as (a' & Happly & _ & Hplain).
  - vm_compute. reflexivity.
  - reflexivity.
  - reflexivity.
  - exists a'. split; [exact Happly|]. apply Hplain. left. reflexivity.
Defined.

(** With a ceiling of two and two parentless jobs queued, one tick
    admits the first job only. *)
Lemma admitTick_admits_one_job_only :
  jobQueueLock twoQueued = false ∧
  numOfUnfinishedJobs twoQueued = 0 ∧
  MaxNumConcurrentJobs (conf twoQueued) = 2 ∧
  ∃ a', admitTick twoQueued = Done a' ∧
        jobQueue a' = [(2%nat, job "b")] ∧
        numOfUnfinishedJobs a' = 1 ∧
        jobList a' !! "b" = None.
Proof.
  split_and!; [by vm_compute..|].
  eexists. split_and!; by vm_compute.
Qed.

Lemma admitTick_decides_head_once_witness :
  admitTick twoQueued = Done (dequeueAndRunJob twoQueued) ∧
  admitTick (childQueued parentUnfinished) =
    Done (withJobQueue (childQueued parentUnfinished)
            [(3%nat, job "c"); (2%nat, job "b")]) ∧
  admitTick (childQueued parentFinishedFailed) =
    dequeueJobAsFailed (childQueued parentFinishedFailed)
      "failed to run job b due to failed parent(s): %!w(<nil>)" ∧
  admitTick (childQueued parentFinishedOK) =
    Done (dequeueAndRunJob (childQueued parentFinishedOK)).
Proof.
  split_and!.
  - destruct (admitTick_decides_head_once twoQueued 1%nat (job "a")
                [(2%nat, job "b")]) as (Hrun & _).
    + reflexivity.
    + vm_compute. reflexivity.
    + reflexivity.
    + apply Hrun. vm_compute. reflexivity.
  - destruct (admitTick_decides_head_once (childQueued parentUnfinished)
                2%nat (job "b") [(3%nat, job "c")]) as (_ & Hdeps & _).
    + reflexivity.
    + vm_compute. reflexivity.
    + reflexivity.
    + destruct Hdeps as (Hwait & _).
      * eexists. vm_compute. reflexivity.
      * apply Hwait. vm_compute. reflexivity.
  - destruct (admitTick_decides_head_once (childQueued parentFinishedFailed)
                2%nat (job "b") [(3%nat, job "c")]) as (_ & Hdeps & _).
    + reflexivity.
    + vm_compute. reflexivity.
    + reflexivity.
    + destruct Hdeps as (_ & Hfail & _).
      * eexists. vm_compute. reflexivity.
      * apply Hfail; vm_compute; reflexivity.
  - destruct (admitTick_decides_head_once (childQueued parentFinishedOK)
                2%nat (job "b") [(3%nat, job "c")]) as (_ & Hdeps & _).
    + reflexivity.
    + vm_compute. reflexivity.
    + reflexivity.
    + destruct Hdeps as (_ & _ & Hrun).
      * eexists. vm_compute. reflexivity.
      * apply Hrun; vm_compute; reflexivity.
Defined.

Lemma dequeueJobAsFailed_leaves_channel_open_witness :
  ∃ a' ch,
    dequeueJobAsFailed (childQueued parentFinishedFailed) "parent failed" = Done a' ∧
    updateChans a' = [ch] ∧ chanClosed ch = false ∧ workers a' = [] ∧
    ∃ ch', pumpStep ch =
             Some (tableActionUpdateJob "b"
                     (AsFinished (WithError (job "b") "parent failed")), ch') ∧
           pumpStep ch' = None.
Proof.
  destruct (dequeueJobAsFailed_leaves_channel_open
              (childQueued parentFinishedFailed) 2%nat (job "b")
              [(3%nat, job "c")] "parent failed" eq_refl)
    as (a' & ch & Hrun & _ & _ & Hchans & Hworkers & _ & Hopen & ch' & Hpump
        & _ & _ & Hwait).
  exists a', ch. split_and!; [exact Hrun|exact Hchans|exact Hopen|exact Hworkers|].
  exists ch'. split; [exact Hpump | exact Hwait].
Defined.

Lemma UpdateJob_sticky_error_witness :
  ∃ a', applyTableUpdate aFailedBRunning (tableActionUpdateJob "a" (job "a")) = Some a' ∧
        jobList a' !! "a" = Some (WithError (job "a") "disk full") ∧
        jobList a' !! "b" = Some (job "b").
Proof.
  destruct (UpdateJob_sticky_error aFailedBRunning "a"
              (AsFinished (WithError (job "a") "disk full")) (job "a"))
    as (a' & Happly & Hsticky & _ & Hother).
  - vm_compute. reflexivity.
  - exists a'. split_and!.
    + exact Happly.
    + apply (Hsticky "disk full"); reflexivity.
    + rewrite (Hother "b") by discriminate. vm_compute. reflexivity.
Defined.

Lemma atCeiling_reachable : Jobs.reachable conf2 [] atCeiling.
Proof.
  assert (Jobs.reachable conf2 [] sameIdTwice) as Hqueued.
  { eapply reach_step; [eapply reach_step; [eapply reach_step;
      [eapply reach_step; [apply reach_init|]|]|]|].
    - apply (step_enqueue _ 1%nat (job "a")). reflexivity.
    - apply (step_enqueue _ 2%nat (job "a")). reflexivity.
    - apply (step_enqueue _ 3%nat (job "b")). reflexivity.
    - apply (step_enqueue _ 4%nat (job "c")). reflexivity. }
  assert (Jobs.reachable conf2 [] firstRunDone) as Hdone.
  { eapply reach_step; [eapply reach_step; [eapply reach_step;
      [eapply reach_step; [exact Hqueued|]|]|]|].
    - apply step_tick. vm_compute. reflexivity.
    - apply step_tick. vm_compute. reflexivity.
    - apply (step_update _ "a" (job "a")). vm_compute. reflexivity.
    - apply (step_finish _ "a" (Some (job "a"))). vm_compute. reflexivity. }
  eapply reach_step; [eapply reach_step; [exact Hdone|]|];
    apply step_tick; vm_compute; reflexivity.
Defined.

Lemma UpdateJob_on_finished_entry_exceeds_ceiling_witness :
  Jobs.reachable conf2 [] overCeiling ∧
  MaxNumConcurrentJobs (conf overCeiling) = 2 ∧
  numOfUnfinishedJobs atCeiling = 2 ∧
  numOfUnfinishedJobs overCeiling = 3 ∧
  chanJob <$> updateChans overCeiling = ["a"; "a"; "b"; "c"] ∧
  workers overCeiling = [(1%nat, 0%nat); (2%nat, 1%nat); (3%nat, 2%nat); (4%nat, 3%nat)].
Proof.
  destruct (UpdateJob_on_finished_entry_exceeds_ceiling conf2 [] atCeiling "a"
              (AsFinished (job "a")) (job "a"))
    as (a' & Happly & Hreach & _ & Hcount & _).
  - exact atCeiling_reachable.
  - vm_compute. reflexivity.
  - reflexivity.
  - reflexivity.
  - reflexivity.
  - vm_compute. discriminate.
  - assert (overCeiling = a') as ->.
    { unfold overCeiling, applied. by rewrite Happly. }
    split_and!; [exact Hreach | | by vm_compute | | |].
    + injection Happly as <-. by vm_compute.
    + rewrite Hcount. by vm_compute.
    + injection Happly as <-. by vm_compute.
    + injection Happly as <-. by vm_compute.
Defined.

(** After the third tick the ceiling is reached, the third job is still
    queued and the queue lock is still held, so the next tick blocks. *)
Example ceiling_is_reached :
  numOfUnfinishedJobs (afterTick (afterTick (afterTick threeQueued))) = 2 ∧
  jobQueue (afterTick (afterTick (afterTick threeQueued))) = [(3%nat, job "c")] ∧
  jobQueueLock (afterTick (afterTick (afterTick threeQueued))) = true ∧
  admitTick (afterTick (afterTick (afterTick threeQueued))) = Blocked.
Proof. by vm_compute. Qed.

(** An aligned corpus ID with a colon: the stored key "en:de:cs" lists
    the corpora "en", "de" and "cs", and "en" has no bucket. *)
Lemma Set_colon_breaks_depsInv :
  depsInv freshCache ∧
  data colonCache !! "en:de:cs" = Some (Some 1%nat) ∧
  "en" ∈ keyCorpora "en:de:cs" ∧
  corpKeyDeps colonCache !! "en" = None ∧
  ¬ depsInv colonCache.
Proof.
  split_and!; [apply depsInv_new | by vm_compute | by left | by vm_compute |].
  intros Hinv. destruct (Hinv "en:de:cs" "en") as (ks & Hks & _).
  - eexists. vm_compute. reflexivity.
  - vm_compute. left.
  - vm_compute in Hks. discriminate.
Qed.

Lemma Set_Del_preserve_depsInv_witness :
  depsInv csEnDe ∧ depsInv (Del csEnDe "de").
Proof.
  assert (depsInv csEnDe) as Hinv.
  { destruct (Set_Del_preserve_depsInv (AttrVal := string) freshCache depsInv_new)
      as (Hset & _).
    apply Hset; [reflexivity | repeat constructor]. }
  split; [exact Hinv|].
  destruct (Set_Del_preserve_depsInv (AttrVal := string) csEnDe Hinv)
    as (_ & Hdel).
  apply Hdel.
Defined.

(** After [Set("cs", aligned = ["en:de"], v)] and [Del("de")], the query
    for "cs" with aligned "en" and "de" still hits. *)
Lemma Del_misses_colon_key :
  Cache.reachable (AttrVal := string) colonCache ∧
  "de" ∈ Aligned (noFilter ["en"; "de"]) ++ ["cs"] ∧
  size (Attrs (noFilter ["en"; "de"])) = 0%nat ∧
  Get (Del colonCache "de") "cs" (noFilter ["en"; "de"]) = Some 1%nat.
Proof.
  split_and!.
  - apply reach_Set, reach_new.
  - right. left.
  - reflexivity.
  - vm_compute. reflexivity.
Qed.

Lemma Del_evicts_witness :
  data (Del csEnDe "de") !! "en:de:cs" = None ∧
  corpKeyDeps (Del csEnDe "de") !! "de" = None ∧
  Get (Del csEnDe "de") "cs" (noFilter ["en"; "de"]) = None.
Proof.
  destruct (Del_evicts (AttrVal := string) csEnDe "de") as (Hkeys & Hbucket & Hget).
  split_and!.
  - apply Hkeys. vm_compute. left.
  - exact Hbucket.
  - apply Hget.
    + apply (Set_preserves_depsInv (AttrVal := string));
        [reflexivity | repeat constructor | apply depsInv_new].
    + reflexivity.
    + reflexivity.
    + repeat constructor.
    + right. left.
Defined.

Lemma Get_filtered_query_misses_witness :
  (0 < size (Attrs (filtered ["en"; "de"])))%nat ∧
  Get csEnDe "cs" (filtered ["en"; "de"]) = None.
Proof.
  assert ((0 < size (Attrs (filtered ["en"; "de"])))%nat) as Hattrs
    by (vm_compute; lia).
  split; [exact Hattrs|].
  exact (Get_filtered_query_misses csEnDe "cs" (filtered ["en"; "de"]) Hattrs).
Defined.

Lemma goWaitExit_snapshot_witness :
  ∃ snapshot,
    goWaitExit aFailedBRunning = Some ("/tmp/jobs.json", snapshot) ∧
    job "b" ∈ snapshot ∧
    (AsFinished (WithError (job "a") "disk full") ∉ snapshot) ∧
    length snapshot = 1%nat.
Proof.
  destruct (goWaitExit_snapshot aFailedBRunning) as (Hpath & _).
  destruct Hpath as (snapshot & Hexit & Helem & Hlen).
  - discriminate.
  - exists snapshot. split_and!.
    + exact Hexit.
    + apply Helem. exists "b". split; [vm_compute|]; reflexivity.
    + intros (id & _ & Hf)%Helem. discriminate Hf.
    + apply Nat2Z.inj. rewrite Hlen. vm_compute. reflexivity.
Defined.

Lemma buckets_noDup_and_Set_idempotent_witness :
  NoDup ["en:de:cs"] ∧
  Set_ csEnDe "cs" (noFilter ["en"; "de"]) (Some 7%nat) = csEnDe.
Proof.
  destruct (buckets_noDup_and_Set_idempotent (AttrVal := string) (QueryAns := nat))
    as (Hnodup & Hidem).
  split.
  - apply (Hnodup csEnDe (reach_Set _ _ _ _ reach_new) "de").
    vm_compute. reflexivity.
  - apply Hidem.
Defined.

End Concrete.
(* ===================================================================== *)
(** * Part III: further properties of the embedded code                    *)
(* ===================================================================== *)

Section CacheMore.
Import Cache CacheIndex.
Context {AttrVal QueryAns : Type}.
Implicit Types (qc : EmptyQueryCache QueryAns) (qry : Payload AttrVal).

(** *** [Set] and [Get] *)

Lemma Get_unfold qc corpusID qry :
  size (Attrs qry) = 0%nat →
  Get qc corpusID qry = default None (data qc !! mkKey corpusID (Aligned qry)).
Proof. intros H. unfold Get. by rewrite H. Qed.

(** X1.  A value stored by [Set] for a query without attribute filter is
    what [Get] returns for the same corpus and query, whatever the cache
    held before; a [Set] for a query with a filter changes nothing. *)
Theorem Set_then_Get qc corpusID qry value :
  (size (Attrs qry) = 0%nat →
   Get (Set_ qc corpusID qry value) corpusID qry = value) ∧
  (size (Attrs qry) ≠ 0%nat → Set_ qc corpusID qry value = qc).
Proof.
  split.
  - intros H. rewrite Get_unfold, Set_unfold by done. simpl.
    by rewrite lookup_insert_eq.
  - apply Set_filtered.
Qed.

(** X2.  Two queries over colon-free corpus IDs share a cache key only
    if they name the same primary corpus and the same aligned corpora in
    the same order. *)
Theorem mkKey_injective corpusID1 aligned1 corpusID2 aligned2 :
  colonFree corpusID1 = true →
  Forall (fun c => colonFree c = true) aligned1 →
  colonFree corpusID2 = true →
  Forall (fun c => colonFree c = true) aligned2 →
  mkKey corpusID1 aligned1 = mkKey corpusID2 aligned2 →
  corpusID1 = corpusID2 ∧ aligned1 = aligned2.
Proof.
  intros Hc1 Ha1 Hc2 Ha2 Hkey.
  assert (aligned1 ++ [corpusID1] = aligned2 ++ [corpusID2]) as Heq.
  { rewrite <- (keyCorpora_mkKey corpusID1 aligned1),
            <- (keyCorpora_mkKey corpusID2 aligned2) by done.
    by rewrite Hkey. }
  apply app_inj_tail in Heq as [-> ->]. done.
Qed.

(** X3.  [Set] leaves the answer of [Get] for every query with another
    key as it was. *)
Theorem Set_keeps_other_keys qc corpusID qry value corpusID' qry' :
  mkKey corpusID' (Aligned qry') ≠ mkKey corpusID (Aligned qry) →
  Get (Set_ qc corpusID qry value) corpusID' qry' = Get qc corpusID' qry'.
Proof.
  intros Hne. destruct (decide (size (Attrs qry) = 0%nat)) as [E|E];
    [|by rewrite Set_filtered].
  unfold Get. destruct (0 <? size (Attrs qry'))%nat; [done|].
  rewrite Set_unfold by done. simpl. by rewrite lookup_insert_ne.
Qed.

(** *** [Del] *)

(** X4.  [Del] for a corpus that has no bucket in the reverse index
    leaves the cache exactly as it was; hence a second [Del] of the same
    corpus changes nothing. *)
Theorem Del_without_bucket qc corpusID :
  (corpKeyDeps qc !! corpusID = None → Del qc corpusID = qc) ∧
  Del (Del qc corpusID) corpusID = Del qc corpusID.
Proof.
  assert (∀ qc', corpKeyDeps qc' !! corpusID = None → Del qc' corpusID = qc')
    as Hnone.
  { intros qc' H. rewrite Del_unfold, H. simpl. rewrite delete_id by done.
    by destruct qc'. }
  split; [apply Hnone|]. apply Hnone, Del_bucket_gone.
Qed.

(** X5.  [Del] evicts nothing but the keys listed in the bucket of the
    deleted corpus: a query whose key is not listed there is answered as
    before. *)
Theorem Del_keeps_unlisted qc corpusID primary qry :
  mkKey primary (Aligned qry) ∉ default [] (corpKeyDeps qc !! corpusID) →
  Get (Del qc corpusID) primary qry = Get qc primary qry.
Proof.
  intros Hnin. unfold Get. destruct (0 <? size (Attrs qry))%nat; [done|].
  rewrite Del_data. by rewrite decide_False.
Qed.

Lemma DelLoop_dom cInv d deps total :
  dom (snd (fst (DelLoop (QueryAns := QueryAns) cInv (d, deps, total)))) = dom deps.
Proof.
  revert d deps total.
  induction cInv as [|x cInv IH]; intros d deps total; [done|].
  rewrite DelLoop_cons, IH. unfold pruneKeyInDeps. simpl. apply dom_fmap_L.
Qed.

(** X6.  [Del] removes the bucket of the deleted corpus and no other
    bucket: the buckets of the other corpora stay in the reverse index,
    also when they become empty. *)
Theorem Del_buckets qc corpusID :
  dom (corpKeyDeps (Del qc corpusID)) = dom (corpKeyDeps qc) ∖ {[corpusID]}.
Proof.
  rewrite Del_unfold. simpl. by rewrite dom_delete_L, DelLoop_dom.
Qed.

(** X26.  Whatever the cache held and whatever the corpus IDs are: after
    a [Set] for a query without attribute filter, a [Del] of the primary
    corpus or of any of the aligned corpora of that query makes [Get]
    for the same corpus and query a miss. *)
Theorem Set_Del_Get_misses qc corpusID qry value deleted :
  size (Attrs qry) = 0%nat →
  deleted ∈ Aligned qry ++ [corpusID] →
  Get (Del (Set_ qc corpusID qry value) deleted) corpusID qry = None.
Proof.
  intros Hattrs Hin. rewrite Get_unfold by done. rewrite Del_data.
  destruct (Set_linked qc corpusID qry value deleted Hattrs Hin)
    as (keys & Hkeys & Hkey).
  rewrite Hkeys. simpl. by rewrite decide_True.
Qed.

(** *** The reverse index never dangles *)

Lemma setKeyCorpusDependency_linked_inv deps corpusID key c k :
  linked (setKeyCorpusDependency deps corpusID key) c k →
  linked deps c k ∨ (c = corpusID ∧ k = key).
Proof.
  unfold setKeyCorpusDependency, linked.
  destruct (deps !! corpusID) as [keys|] eqn:E.
  - case_bool_decide as Hin; [by left|].
    intros (ks & Hks & Hk). destruct (decide (corpusID = c)) as [->|Hne].
    + rewrite lookup_insert_eq in Hks. injection Hks as <-.
      apply elem_of_app in Hk as [Hk|Hk]; [left; eauto|].
      apply list_elem_of_singleton in Hk. by right.
    + rewrite lookup_insert_ne in Hks by done. left. eauto.
  - intros (ks & Hks & Hk). destruct (decide (corpusID = c)) as [->|Hne].
    + rewrite lookup_insert_eq in Hks. injection Hks as <-.
      apply list_elem_of_singleton in Hk. by right.
    + rewrite lookup_insert_ne in Hks by done. left. eauto.
Qed.

Lemma linkAligned_linked_inv aligned deps key c k :
  linked (linkAligned deps aligned key) c k → linked deps c k ∨ k = key.
Proof.
  revert deps. induction aligned as [|a aligned IH]; intros deps H; [by left|].
  simpl in H. apply IH in H as [H|H]; [|by right].
  apply setKeyCorpusDependency_linked_inv in H as [H|[_ H]]; auto.
Qed.

Lemma Set_noDangling qc corpusID qry value :
  noDangling qc → noDangling (Set_ qc corpusID qry value).
Proof.
  intros Hnd. destruct (decide (size (Attrs qry) = 0%nat)) as [E|E];
    [|by rewrite Set_filtered].
  intros c k. rewrite Set_unfold by done. simpl. intros Hl.
  destruct (decide (k = mkKey corpusID (Aligned qry))) as [->|Hne].
  - by rewrite lookup_insert_eq.
  - rewrite lookup_insert_ne by done.
    apply linkAligned_linked_inv in Hl as [Hl|Hl]; [|done].
    apply setKeyCorpusDependency_linked_inv in Hl as [Hl|[_ Hl]]; [|done].
    by apply (Hnd c k).
Qed.

Lemma Del_noDangling qc corpusID :
  noDangling qc → noDangling (Del qc corpusID).
Proof.
  intros Hnd c k Hl. apply Del_linked in Hl as (_ & Hl & Hnin).
  rewrite Del_data, decide_False by done. by apply (Hnd c k).
Qed.

(** X7.  In every state the cache reaches from a fresh one by [Set] and
    [Del], with any corpus IDs, every key listed in a bucket of the
    reverse index is a stored key. *)
Theorem reachable_noDangling qc :
  Cache.reachable (AttrVal := AttrVal) qc → noDangling qc.
Proof.
  induction 1 as [|qc corpusID qry value _ IH|qc corpusID _ IH].
  - intros c k (ks & Hks & _). simpl in Hks. by rewrite lookup_empty in Hks.
  - by apply Set_noDangling.
  - by apply Del_noDangling.
Qed.

(** *** The figure logged by [Del] *)

Lemma indexSize_insert_fresh deps corpusID keys :
  deps !! corpusID = None →
  indexSize (<[corpusID := keys]> deps) = (indexSize deps + length keys)%nat.
Proof.
  intros H. unfold indexSize.
  rewrite map_fold_insert_L; [done| |done]. intros. lia.
Qed.

Lemma indexSize_delete deps corpusID keys :
  deps !! corpusID = Some keys →
  indexSize deps = (indexSize (delete corpusID deps) + length keys)%nat.
Proof.
  intros H. rewrite <- (insert_delete_id deps corpusID keys) at 1 by done.
  apply indexSize_insert_fresh, lookup_delete_eq.
Qed.

Lemma pruneBucket_count key keys :
  (length (pruneBucket key keys) + countKey key keys)%nat = length keys.
Proof.
  unfold pruneBucket, countKey.
  induction keys as [|k keys IH]; [done|].
  rewrite !filter_cons. repeat case_decide; simpl; try lia; congruence.
Qed.

Lemma pruneKeyInDeps_count deps key :
  (indexSize (fst (pruneKeyInDeps deps key)) + snd (pruneKeyInDeps deps key))%nat
  = indexSize deps.
Proof.
  unfold pruneKeyInDeps. simpl.
  induction deps as [|c keys deps Hc IH] using map_ind.
  - rewrite fmap_empty. unfold indexSize. by rewrite !map_fold_empty.
  - rewrite fmap_insert.
    rewrite indexSize_insert_fresh by (by rewrite lookup_fmap, Hc).
    rewrite indexSize_insert_fresh by done.
    rewrite map_fold_insert_L; [|intros; lia|done].
    pose proof (pruneBucket_count key keys). lia.
Qed.

Lemma DelLoop_count cInv d deps total :
  (indexSize (snd (fst (DelLoop (QueryAns := QueryAns) cInv (d, deps, total))))
   + snd (DelLoop (QueryAns := QueryAns) cInv (d, deps, total)))%nat
  = (indexSize deps + total)%nat.
Proof.
  revert d deps total.
  induction cInv as [|x cInv IH]; intros d deps total; [done|].
  rewrite DelLoop_cons, IH. pose proof (pruneKeyInDeps_count deps x). lia.
Qed.

Lemma DelLogged_unfold qc corpusID :
  DelLogged qc corpusID =
    let st := DelLoop (default [] (corpKeyDeps qc !! corpusID))
                      (data qc, corpKeyDeps qc, 0%nat) in
    ({| data := fst (fst st); corpKeyDeps := delete corpusID (snd (fst st)) |},
     snd st).
Proof.
  unfold DelLogged. by destruct (DelLoop _ _) as [[d deps] total].
Qed.

(** X8.  The figure [prunedKeyDeps] that [Del] logs is the number of
    links the reverse index loses: the links left after [Del] and the
    logged figure add up to the links held before. *)
Theorem Del_logged_figure qc corpusID :
  (indexSize (corpKeyDeps (fst (DelLogged qc corpusID)))
   + snd (DelLogged qc corpusID))%nat
  = indexSize (corpKeyDeps qc).
Proof.
  rewrite DelLogged_unfold. simpl.
  set (cInv := default [] (corpKeyDeps qc !! corpusID)).
  pose proof (DelLoop_count cInv (data qc) (corpKeyDeps qc) 0%nat) as Hcount.
  pose proof (DelLoop_linked cInv (data qc) (corpKeyDeps qc) 0%nat corpusID)
    as Hlinked.
  destruct (DelLoop cInv (data qc, corpKeyDeps qc, 0%nat)) as [[d deps] total].
  simpl in *.
  destruct (deps !! corpusID) as [keys|] eqn:E.
  - assert (keys = []) as ->.
    { destruct keys as [|k keys]; [done|]. exfalso.
      destruct (Hlinked k) as [[(ks & Hks & Hk) Hnin] _].
      { exists (k :: keys). split; [done | by left]. }
      apply Hnin. unfold cInv. by rewrite Hks. }
    rewrite (indexSize_delete deps corpusID []) in Hcount by done.
    simpl in Hcount. lia.
  - rewrite delete_id by done. lia.
Qed.

End CacheMore.

Section JobsMoreFacts.
Import Jobs JobsMore.
Context {J F P : Type}.
Context `{!GeneralJobInfo J} `{!JobsDepsOps P} `{!OldJobsPolicy J}.
Context `{!JobInfoMeta J} `{!JobLookup J}.
Implicit Types (a : Actions J F P) (j : J).

Local Open Scope Z_scope.

(** *** The detached registry *)

Lemma GetDetachedJobs_length a :
  length (GetDetachedJobs a) = size (detachedJobs a).
Proof.
  unfold GetDetachedJobs.
  apply (map_fold_weak_ind (fun r m => length r = size m)).
  - by rewrite map_size_empty.
  - intros id j m r Hid IH. rewrite length_app, IH. simpl.
    rewrite map_size_insert_None by done. lia.
Qed.

(** X9.  [ClearDetachedJob] returns true exactly when the job was in the
    detached registry, removes that entry and no other, makes the list
    of detached jobs one shorter in that case, and a second call for the
    same ID returns false. *)
Theorem ClearDetachedJob_reports_and_removes a jobID :
  (snd (ClearDetachedJob a jobID) = true ↔ is_Some (detachedJobs a !! jobID)) ∧
  detachedJobs (fst (ClearDetachedJob a jobID)) !! jobID = None ∧
  (∀ other, other ≠ jobID →
     detachedJobs (fst (ClearDetachedJob a jobID)) !! other =
     detachedJobs a !! other) ∧
  length (GetDetachedJobs (fst (ClearDetachedJob a jobID))) =
    (length (GetDetachedJobs a)
     - (if snd (ClearDetachedJob a jobID) then 1 else 0))%nat ∧
  snd (ClearDetachedJob (fst (ClearDetachedJob a jobID)) jobID) = false.
Proof.
  split_and!.
  - simpl. apply bool_decide_eq_true.
  - simpl. apply lookup_delete_eq.
  - intros other Hne. simpl. by apply lookup_delete_ne.
  - rewrite !GetDetachedJobs_length. simpl.
    case_bool_decide as Hin.
    + rewrite map_size_delete_Some by done. lia.
    + rewrite map_size_delete_None by (by apply eq_None_not_Some). lia.
  - simpl. apply bool_decide_eq_false. rewrite lookup_delete_eq.
    by intros [? ?].
Qed.

Lemma NewActions_detached_lookup (c : Conf) (loaded : list (option J)) id :
  detachedJobs (NewActions (F := F) (P := P) c loaded) !! id =
  last (filter (fun j => GetID j = id) (omap (fun job => job) loaded)).
Proof.
  simpl. induction loaded as [|job loaded IH] using rev_ind.
  - simpl. by rewrite lookup_empty.
  - rewrite foldl_snoc, omap_app, filter_app. simpl.
    destruct job as [j|]; simpl.
    + rewrite filter_cons, filter_nil.
      destruct (decide (GetID j = id)) as [<-|Hne].
      * rewrite lookup_insert_eq. by rewrite last_snoc.
      * rewrite lookup_insert_ne by done. by rewrite app_nil_r.
    + rewrite filter_nil. by rewrite app_nil_r.
Qed.

(** X10.  [NewActions] starts with an empty job table and an empty
    queue; the detached registry holds, for every ID, the last non-nil
    job with that ID in the loaded list, so nil entries are skipped and
    of two loaded jobs with one ID the later one stays. *)
Theorem NewActions_loads_detached (c : Conf) (loaded : list (option J)) :
  (∀ id, detachedJobs (NewActions (F := F) (P := P) c loaded) !! id =
         last (filter (fun j => GetID j = id) (omap (fun job => job) loaded))) ∧
  createJobList (NewActions (F := F) (P := P) c loaded) false = [] ∧
  numOfUnfinishedJobs (NewActions (F := F) (P := P) c loaded) = 0 ∧
  jobQueue (NewActions (F := F) (P := P) c loaded) = [].
Proof.
  split_and!.
  - apply NewActions_detached_lookup.
  - unfold createJobList. simpl. by rewrite map_fold_empty.
  - unfold numOfUnfinishedJobs. simpl. apply countUnfinished_empty.
  - done.
Qed.

(** X11.  On a scheduler that holds no queue lock, is below its ceiling
    and has an empty queue, a job without dependencies that is enqueued
    is admitted by the next tick: it is then in the job table as
    enqueued, its worker is started on a new open channel, the queue is
    empty again, and a detached job with the same ID is gone from the
    detached registry while the other detached jobs stay. *)
Theorem enqueued_job_runs_after_tick a fn j :
  jobQueueLock a = false →
  numOfUnfinishedJobs a < MaxNumConcurrentJobs (conf a) →
  jobQueue a = [] →
  jobDeps a !! GetID j = None →
  ∃ a1 a2,
    EnqueueJob a fn j = Done a1 ∧ admitTick a1 = Done a2 ∧
    jobList a2 = <[GetID j := j]> (jobList a) ∧
    detachedJobs a2 = delete (GetID j) (detachedJobs a) ∧
    jobQueue a2 = [] ∧ jobQueueLock a2 = false ∧
    workers a2 = workers a ++ [(fn, length (updateChans a))] ∧
    updateChans a2 = updateChans a ++ [newChan (GetID j)].
Proof.
  intros Hlock Hlt Hq Hdeps. eexists _, _. split.
  { unfold EnqueueJob. by rewrite Hlock. }
  rewrite Hq. simpl. split.
  { rewrite admitTick_below by done. unfold admitHead. simpl. rewrite Hdeps.
    by rewrite (dequeueAndRunJob_head _ fn j []). }
  simpl. split_and!; try done.
  case_bool_decide as Hin; [done|].
  rewrite delete_id; [done|]. by apply eq_None_not_Some.
Qed.

(** *** The pump of an update channel *)

Lemma pumpRun_done fuel (c : UpdateChan J) :
  pumpDone c = true → pumpRun fuel c = ([], c).
Proof.
  intros H. destruct fuel; [done|]. simpl. unfold pumpStep. by rewrite H.
Qed.

Lemma pumpRun_drains (buf : list J) : ∀ id closed (item : option J) fuel,
  (length buf < fuel)%nat →
  pumpRun fuel (mkChan id buf closed item false) =
    (map (tableActionUpdateJob id) buf ++
       (if closed then [tableActionFinishJob id (lastSeen item buf)] else []),
     mkChan id [] closed (lastSeen item buf) closed).
Proof.
  induction buf as [|x buf IH]; intros id closed item fuel Hfuel.
  - destruct fuel as [|fuel]; [simpl in Hfuel; lia|].
    simpl. unfold pumpStep. simpl. destruct closed; [|done].
    by rewrite pumpRun_done.
  - destruct fuel as [|fuel]; [simpl in Hfuel; lia|].
    simpl in Hfuel. simpl. unfold pumpStep. simpl.
    rewrite IH by lia.
    assert (lastSeen (Some x) buf = lastSeen item (x :: buf)) as ->; [|done].
    unfold lastSeen. rewrite last_cons. by destruct (last buf).
Qed.

(** X12.  A pump that has not returned forwards the buffered items of
    its channel as [UpdateJob] events in the order they were sent; on a
    closed channel it then sends exactly one [FinishJob] event, carrying
    the last item it has seen, and returns; on an open channel it sends
    no [FinishJob] event and waits. *)
Theorem pump_forwards_in_order (c : UpdateChan J) (fuel : nat) :
  pumpDone c = false →
  (length (chanBuf c) < fuel)%nat →
  fst (pumpRun fuel c) =
    map (tableActionUpdateJob (chanJob c)) (chanBuf c) ++
    (if chanClosed c
     then [tableActionFinishJob (chanJob c) (lastSeen (pumpItem c) (chanBuf c))]
     else []) ∧
  chanBuf (snd (pumpRun fuel c)) = [] ∧
  pumpDone (snd (pumpRun fuel c)) = chanClosed c ∧
  pumpStep (snd (pumpRun fuel c)) = None.
Proof.
  destruct c as [id buf closed item done]. simpl. intros -> Hfuel.
  rewrite pumpRun_drains by done. simpl. split_and!; try done.
  unfold pumpStep. simpl. by destruct closed.
Qed.

(** *** When the consumer panics *)

(** X13.  The consumer of table updates panics exactly on an
    [UpdateJob] or [FinishJob] event for an ID without table entry and
    on a [FinishJob] event without data; the pump of a channel that is
    closed before anything was sent on it sends such a [FinishJob]
    event. *)
Theorem consumer_panics a :
  (∀ upd,
     applyTableUpdate a upd = None ↔
     match upd with
     | tableActionUpdateJob itemID _ => jobList a !! itemID = None
     | tableActionFinishJob itemID data =>
         jobList a !! itemID = None ∨ data = None
     | tableActionClearOldJobs => False
     end) ∧
  (∀ jobID,
     fst (pumpRun 1 (chanClose (newChan (J := J) jobID))) =
       [tableActionFinishJob jobID None] ∧
     applyTableUpdates a (fst (pumpRun 1 (chanClose (newChan (J := J) jobID)))) = None).
Proof.
  split.
  - intros [itemID data|itemID data|]; simpl.
    + destruct (jobList a !! itemID) as [cur|]; [|done].
      by destruct (GetError cur), (GetError data).
    + destruct (jobList a !! itemID) as [cur|]; [|by split; [left|]].
      destruct data as [d|]; [|by split; [right|]].
      split; [done|]. by intros [|].
    + split; [done|tauto].
  - intros jobID. split; [done|]. simpl.
    by destruct (jobList a !! jobID).
Qed.

(** *** A job from registration to its finish *)

Lemma applyTableUpdates_cons a upd events :
  applyTableUpdates a (upd :: events) =
  match applyTableUpdate a upd with
  | None => None
  | Some a' => applyTableUpdates a' events
  end.
Proof. reflexivity. Qed.

Lemma applyTableUpdates_updates (items : list J) : ∀ a itemID (cur : J),
  jobList a !! itemID = Some cur →
  applyTableUpdates a (map (tableActionUpdateJob itemID) items) =
    Some (withJobList a (<[itemID := foldl merged cur items]> (jobList a))).
Proof.
  induction items as [|d items IH]; intros a itemID cur Hcur.
  - simpl. rewrite insert_id by done. by destruct a.
  - simpl map. rewrite applyTableUpdates_cons.
    rewrite (applyTableUpdate_update a itemID cur d Hcur).
    fold (merged cur d).
    rewrite (IH _ itemID (merged cur d)) by (simpl; apply lookup_insert_eq).
    simpl. unfold withJobList. simpl. by rewrite insert_insert_eq.
Qed.

Lemma applyTableUpdates_app a evs1 evs2 :
  applyTableUpdates a (evs1 ++ evs2) =
  match applyTableUpdates a evs1 with
  | Some a' => applyTableUpdates a' evs2
  | None => None
  end.
Proof.
  revert a. induction evs1 as [|upd evs1 IH]; intros a; [done|].
  simpl app. rewrite !applyTableUpdates_cons.
  destruct (applyTableUpdate a upd); [apply IH | done].
Qed.

Lemma lifecycle a itemID cur items d :
  jobList a !! itemID = Some cur →
  last items = Some d →
  applyTableUpdates a
    (fst (pumpRun (S (length items))
            (chanClose (mkChan itemID items false None false)))) =
  Some (withJobDeps
          (withJobList a
             (<[itemID := AsFinished (foldl merged cur items)]> (jobList a)))
          (SetParentFinished (jobDeps a) itemID
             (bool_decide (is_Some (GetError d))))).
Proof.
  intros Hcur Hlast. unfold chanClose. simpl chanJob. simpl chanBuf.
  simpl pumpItem. simpl pumpDone.
  rewrite pumpRun_drains by lia. simpl fst.
  rewrite applyTableUpdates_app, (applyTableUpdates_updates items a itemID cur Hcur).
  unfold lastSeen. rewrite Hlast. simpl.
  rewrite lookup_insert_eq. unfold withJobDeps, withJobList. simpl.
  by rewrite insert_insert_eq.
Qed.

(** X14.  A registered job whose worker sends one or more descriptors
    and closes the channel ends, once the consumer has applied the
    pump's events, with the table entry of its ID set to the finished
    copy of the sticky-error merge of the registered entry with the
    descriptors in order; the dependency map is told that the job
    finished, and that it failed exactly when the last descriptor sent
    carries an error; nothing else in the state changes. *)
Theorem worker_run_to_finish a itemID cur items d :
  jobList a !! itemID = Some cur →
  last items = Some d →
  ∃ a',
    applyTableUpdates a
      (fst (pumpRun (S (length items))
              (chanClose (mkChan itemID items false None false)))) = Some a' ∧
    jobList a' = <[itemID := AsFinished (foldl merged cur items)]> (jobList a) ∧
    jobDeps a' =
      SetParentFinished (jobDeps a) itemID (bool_decide (is_Some (GetError d))) ∧
    jobQueue a' = jobQueue a ∧ detachedJobs a' = detachedJobs a ∧
    jobQueueLock a' = jobQueueLock a ∧ conf a' = conf a.
Proof.
  intros Hcur Hlast. eexists. split; [by apply lifecycle|]. done.
Qed.

(** X15.  With descriptors on which [WithError] attaches the error and
    [AsFinished] keeps it: when a worker sends a descriptor with an
    error, then one without, and closes the channel, the table entry of
    the job ends finished and still carries the error, but the
    dependency map is told that the job did not fail. *)
Theorem error_sticks_in_table_not_in_deps a itemID cur d1 d2 e :
  (∀ j err, GetError (WithError j err) = Some err) →
  (∀ j, GetError (AsFinished j) = GetError j) →
  jobList a !! itemID = Some cur →
  GetError d1 = Some e →
  GetError d2 = None →
  ∃ a' entry,
    applyTableUpdates a
      (fst (pumpRun 3 (chanClose (mkChan itemID [d1; d2] false None false))))
      = Some a' ∧
    jobList a' !! itemID = Some entry ∧
    entry = AsFinished (WithError d2 e) ∧
    GetError entry = Some e ∧
    jobDeps a' = SetParentFinished (jobDeps a) itemID false.
Proof.
  intros HwithError HasFinished Hcur He1 He2. eexists _, _. split.
  { by apply (lifecycle a itemID cur [d1; d2] d2). }
  simpl. rewrite lookup_insert_eq.
  assert (merged (merged cur d1) d2 = WithError d2 e) as ->.
  { unfold merged. rewrite He1, He2.
    destruct (GetError cur); by rewrite He1. }
  split_and!; [done|done| |].
  - by rewrite HasFinished, HwithError.
  - by rewrite He2, bool_decide_eq_false_2 by (by intros [? ?]).
Qed.

(** *** The queue lock *)

Lemma admitHead_not_panic a : admitHead a ≠ Panic ∧ admitHead a ≠ Blocked.
Proof.
  unfold admitHead.
  destruct (jobQueue a) as [|[fn initState] rest] eqn:Hq; simpl; [done|].
  assert (∀ err, dequeueJobAsFailed a err ≠ Panic ∧
                 dequeueJobAsFailed a err ≠ Blocked) as Hfailed.
  { intros err. by rewrite (dequeueJobAsFailed_head a fn initState rest). }
  destruct (jobDeps a !! GetID initState); [|done].
  destruct (MustWait (jobDeps a) (GetID initState)) as [err|[|]];
    [apply Hfailed|done|].
  destruct (HasFailedParent (jobDeps a) (GetID initState)) as [err|[|]];
    [apply Hfailed..|done].
Qed.

(** X16.  An admission tick never panics, and it blocks exactly when
    the queue lock is held; on an empty queue below the ceiling it
    returns the state as it was, with the lock released. *)
Theorem admitTick_never_panics a :
  admitTick a ≠ Panic ∧
  (admitTick a = Blocked ↔ jobQueueLock a = true) ∧
  (jobQueueLock a = false →
   numOfUnfinishedJobs a < MaxNumConcurrentJobs (conf a) →
   jobQueue a = [] → admitTick a = Done a).
Proof.
  assert (jobQueueLock a = false →
          admitTick a ≠ Panic ∧ admitTick a ≠ Blocked) as Hfree.
  { intros Hlock.
    destruct (Z.lt_ge_cases (numOfUnfinishedJobs a)
                (MaxNumConcurrentJobs (conf a))) as [Hlt|Hge].
    - rewrite admitTick_below by done. apply admitHead_not_panic.
    - by rewrite admitTick_full. }
  split_and!.
  - destruct (jobQueueLock a) eqn:Hlock; [|by apply Hfree].
    unfold admitTick. by rewrite Hlock.
  - split.
    + intros Hb. destruct (jobQueueLock a) eqn:Hlock; [done|].
      by destruct (Hfree eq_refl).
    + intros Hlock. unfold admitTick. by rewrite Hlock.
  - intros Hlock Hlt Hq. rewrite admitTick_below by done.
    unfold admitHead. by rewrite Hq.
Qed.

Lemma step_locked a a' :
  jobQueueLock a = true → step a a' →
  jobQueueLock a' = true ∧ jobQueue a' = jobQueue a ∧
  dom (jobList a') = dom (jobList a) ∧ workers a' = workers a.
Proof.
  intros Hlock Hstep.
  destruct Hstep as [a fn st a' E|a fn st parent a' E|a a' E
                    |a itemID data a' E|a itemID data a' E].
  - unfold EnqueueJob in E. by rewrite Hlock in E.
  - unfold EqueueJobAfter in E. by rewrite Hlock in E.
  - unfold admitTick in E. by rewrite Hlock in E.
  - simpl in E. destruct (jobList a !! itemID) as [cur|] eqn:Hcur; [|done].
    destruct data as [d|]; [|done]. injection E as <-. simpl.
    split_and!; try done. apply dom_insert_lookup_L. by rewrite Hcur.
  - destruct (jobList a !! itemID) as [cur|] eqn:Hcur.
    2: { simpl in E. by rewrite Hcur in E. }
    rewrite (applyTableUpdate_update a itemID cur data Hcur) in E.
    injection E as <-. simpl.
    split_and!; try done. apply dom_insert_lookup_L. by rewrite Hcur.
Qed.

(** X17.  A tick that finds the count of unfinished entries at the
    ceiling returns with the queue lock still held, and no later step
    releases it: from then on every tick blocks, [EnqueueJob] and
    [EqueueJobAfter] block, and the queue, the set of IDs in the job
    table and the started workers never change, whatever finishes. *)
Theorem tick_at_ceiling_keeps_lock a :
  jobQueueLock a = false →
  MaxNumConcurrentJobs (conf a) ≤ numOfUnfinishedJobs a →
  ∃ a1,
    admitTick a = Done a1 ∧
    ∀ a2, rtc step a1 a2 →
      jobQueueLock a2 = true ∧
      admitTick a2 = Blocked ∧
      (∀ fn j, EnqueueJob a2 fn j = Blocked) ∧
      (∀ fn j parent, EqueueJobAfter a2 fn j parent = Blocked) ∧
      jobQueue a2 = jobQueue a ∧
      dom (jobList a2) = dom (jobList a) ∧
      workers a2 = workers a.
Proof.
  intros Hlock Hge. exists (withJobQueueLock a true).
  split; [by apply admitTick_full|].
  intros a2 Hsteps.
  assert (jobQueueLock a2 = true ∧ jobQueue a2 = jobQueue a ∧
          dom (jobList a2) = dom (jobList a) ∧ workers a2 = workers a)
    as (Hl & Hq & Hd & Hw).
  { revert a2 Hsteps.
    apply (rtc_ind_r
             (fun a2 => jobQueueLock a2 = true ∧ jobQueue a2 = jobQueue a ∧
                        dom (jobList a2) = dom (jobList a) ∧
                        workers a2 = workers a)); [done|].
    intros y z _ Hstep (Hl & Hq & Hd & Hw).
    destruct (step_locked _ _ Hl Hstep) as (? & ? & ? & ?).
    split_and!; congruence. }
  split_and!; try done.
  - unfold admitTick. by rewrite Hl.
  - intros fn j. unfold EnqueueJob. by rewrite Hl.
  - intros fn j parent. unfold EqueueJobAfter. by rewrite Hl.
Qed.

(** *** Workers and their channels *)

Lemma admitHead_channels a a' :
  admitHead a = Done a' →
  (workers a' = workers a ∧
   (updateChans a' = updateChans a ∨
    ∃ c, updateChans a' = updateChans a ++ [c])) ∨
  (∃ fn c, workers a' = workers a ++ [(fn, length (updateChans a))] ∧
           updateChans a' = updateChans a ++ [c]).
Proof.
  assert (∀ err, dequeueJobAsFailed a err = Done a' →
                 workers a' = workers a ∧
                 ∃ c, updateChans a' = updateChans a ++ [c]) as Hfailed.
  { intros err. destruct (jobQueue a) as [|[fn initState] rest] eqn:Hq.
    - by rewrite dequeueJobAsFailed_empty.
    - rewrite (dequeueJobAsFailed_head a fn initState rest) by done.
      intros [= <-]. simpl. eauto. }
  assert (dequeueAndRunJob a = a' →
          (workers a' = workers a ∧ updateChans a' = updateChans a) ∨
          (∃ fn c, workers a' = workers a ++ [(fn, length (updateChans a))] ∧
                   updateChans a' = updateChans a ++ [c])) as Hrun.
  { destruct (jobQueue a) as [|[fn initState] rest] eqn:Hq.
    - rewrite dequeueAndRunJob_empty by done. intros <-. by left.
    - rewrite (dequeueAndRunJob_head a fn initState rest) by done.
      intros <-. right. simpl. eauto. }
  unfold admitHead.
  destruct (PeekID (jobQueue a)) as [nextJobID|].
  2: { intros [= <-]. left. auto. }
  destruct (jobDeps a !! nextJobID).
  2: { intros [= E]. destruct (Hrun E) as [[? ?]|?]; auto. }
  destruct (MustWait (jobDeps a) nextJobID) as [err|[|]].
  - intros E. destruct (Hfailed _ E) as [? ?]. left. auto.
  - intros [= <-]. left. simpl. auto.
  - destruct (HasFailedParent (jobDeps a) nextJobID) as [err|[|]].
    + intros E. destruct (Hfailed _ E) as [? ?]. left. auto.
    + intros E. destruct (Hfailed _ E) as [? ?]. left. auto.
    + intros [= E]. destruct (Hrun E) as [[? ?]|?]; auto.
Qed.

Lemma step_channels a a' :
  step a a' →
  (workers a' = workers a ∧
   (updateChans a' = updateChans a ∨
    ∃ c, updateChans a' = updateChans a ++ [c])) ∨
  (∃ fn c, workers a' = workers a ++ [(fn, length (updateChans a))] ∧
           updateChans a' = updateChans a ++ [c]).
Proof.
  destruct 1 as [a fn st a' E|a fn st parent a' E|a a' E
                |a itemID data a' E|a itemID data a' E].
  - unfold EnqueueJob in E. destruct (jobQueueLock a); [done|].
    injection E as <-. left. auto.
  - unfold EqueueJobAfter in E. destruct (jobQueueLock a); [done|].
    injection E as <-. left. auto.
  - destruct (jobQueueLock a) eqn:Hlock.
    { unfold admitTick in E. by rewrite Hlock in E. }
    destruct (Z.lt_ge_cases (numOfUnfinishedJobs a)
                (MaxNumConcurrentJobs (conf a))) as [Hlt|Hge].
    + rewrite admitTick_below in E by done. by apply admitHead_channels.
    + rewrite admitTick_full in E by done. injection E as <-. left. auto.
  - simpl in E. destruct (jobList a !! itemID); [|done].
    destruct data; [|done]. injection E as <-. left. auto.
  - destruct (jobList a !! itemID) as [cur|] eqn:Hcur.
    2: { simpl in E. by rewrite Hcur in E. }
    rewrite (applyTableUpdate_update a itemID cur data Hcur) in E.
    injection E as <-. left. auto.
Qed.

(** X27.  In every state reached from [NewActions] by scheduler steps,
    every started worker holds a channel that exists and no two workers
    hold the same channel; a channel is never removed. *)
Theorem reachable_workersOwnChannels (c : Conf) (loaded : list (option J)) a :
  Jobs.reachable c loaded a →
  workersOwnChannels a ∧
  ∀ a', step a a' → (length (updateChans a) ≤ length (updateChans a'))%nat.
Proof.
  intros Hreach. split.
  - unfold workersOwnChannels.
    induction Hreach as [|a a' _ [IHlt IHnd] Hstep].
    + split; [|constructor]. intros fn ch Hin. simpl in Hin.
      by apply elem_of_nil in Hin.
    + destruct (step_channels a a' Hstep)
        as [[-> Hch]|(fn & ch & -> & ->)].
      * split; [|done]. intros fn ch Hin. specialize (IHlt fn ch Hin).
        destruct Hch as [->|[c' ->]]; [done|]. rewrite length_app. lia.
      * split.
        -- intros fn' ch' [Hin|Hin]%elem_of_app.
           ++ specialize (IHlt fn' ch' Hin). rewrite length_app. lia.
           ++ apply list_elem_of_singleton in Hin. injection Hin as -> ->.
              rewrite length_app. simpl. lia.
        -- rewrite fmap_app. apply NoDup_app. split; [done|]. split.
           ++ intros ch' Hin Hin'. simpl in Hin'.
              apply list_elem_of_singleton in Hin'. subst ch'.
              apply list_elem_of_fmap in Hin as ([fn' ch'] & Heq & Hin).
              simpl in Heq. subst ch'. specialize (IHlt fn' _ Hin). lia.
           ++ simpl. apply NoDup_singleton.
  - intros a' Hstep.
    destruct (step_channels a a' Hstep)
      as [[_ [->|[c' ->]]]|(fn & ch & _ & ->)];
      rewrite ?length_app; simpl; lia.
Qed.

(** *** The ceiling on runs without late updates *)

Lemma orderlyStep_step a a' : orderlyStep a a' → step a a'.
Proof.
  destruct 1 as [a fn st a' E|a fn st parent a' E|a a' E
                |a itemID data a' E|a itemID data cur a' Hcur Hnf E].
  - by apply (step_enqueue a fn st).
  - by apply (step_enqueue_after a fn st parent).
  - by apply step_tick.
  - by apply (step_finish a itemID data).
  - by apply (step_update a itemID data).
Qed.

Lemma orderlyStep_ceiling a a' :
  (∀ j : J, IsFinished (AsFinished j) = true) →
  orderlyStep a a' →
  numOfUnfinishedJobs a ≤ MaxNumConcurrentJobs (conf a) →
  numOfUnfinishedJobs a' ≤ MaxNumConcurrentJobs (conf a).
Proof.
  intros Hfin Hstep Hle. unfold numOfUnfinishedJobs in *.
  destruct Hstep as [a fn st a' E|a fn st parent a' E|a a' E
                    |a itemID data a' E|a itemID data cur a' Hcur Hnf E].
  - unfold EnqueueJob in E. destruct (jobQueueLock a); [done|].
    by injection E as <-.
  - unfold EqueueJobAfter in E. destruct (jobQueueLock a); [done|].
    by injection E as <-.
  - destruct (jobQueueLock a) eqn:Hlock.
    { unfold admitTick in E. by rewrite Hlock in E. }
    destruct (Z.lt_ge_cases (numOfUnfinishedJobs a)
                (MaxNumConcurrentJobs (conf a))) as [Hlt|Hge].
    + rewrite admitTick_below in E by done.
      apply admitHead_atMostOne in E as (_ & _ & [->|[j ->]] & _); [done|].
      pose proof (countUnfinished_insert_le (jobList a) (GetID j) j).
      unfold numOfUnfinishedJobs in Hlt. lia.
    + rewrite admitTick_full in E by done. by injection E as <-.
  - apply applyTableUpdate_finish in E as (_ & cur & Hcur & ->).
    pose proof (countUnfinished_insert_finished (jobList a) itemID
                  (AsFinished cur) (Hfin cur)). lia.
  - rewrite (applyTableUpdate_update a itemID cur data Hcur) in E.
    injection E as <-. simpl.
    pose proof (countUnfinished_overwrite (jobList a) itemID cur
                  (match GetError cur, GetError data with
                   | Some currErr, None => WithError data currErr
                   | _, _ => data
                   end) Hcur Hnf). lia.
Qed.

(** X28.  With a non-negative [MaxNumConcurrentJobs] and descriptors
    whose finished copy is finished: in a run from [NewActions] in
    which every [UpdateJob] event the consumer applies finds an entry
    that is not marked finished, every state is a reachable one and has
    at most [MaxNumConcurrentJobs] unfinished table entries; a tick
    leaves the table alone when the count is not strictly below the
    ceiling, and applying a [FinishJob] event never raises the count. *)
Theorem orderly_run_keeps_ceiling (c : Conf) (loaded : list (option J)) :
  (∀ j : J, IsFinished (AsFinished j) = true) →
  0 ≤ MaxNumConcurrentJobs c →
  (∀ a, rtc orderlyStep (NewActions c loaded) a →
     Jobs.reachable c loaded a ∧
     numOfUnfinishedJobs a ≤ MaxNumConcurrentJobs c) ∧
  (∀ a a' : Actions J F P, admitTick a = Done a' →
     MaxNumConcurrentJobs (conf a) ≤ numOfUnfinishedJobs a →
     jobList a' = jobList a) ∧
  (∀ (a : Actions J F P) itemID data a',
     applyTableUpdate a (tableActionFinishJob itemID data) = Some a' →
     numOfUnfinishedJobs a' ≤ numOfUnfinishedJobs a).
Proof.
  intros Hfin Hmax. split_and!.
  - intros a Hrun. revert a Hrun.
    apply (rtc_ind_r (fun a => Jobs.reachable c loaded a ∧
                               numOfUnfinishedJobs a ≤ MaxNumConcurrentJobs c)).
    + split; [apply reach_init|]. unfold numOfUnfinishedJobs. simpl.
      by rewrite countUnfinished_empty.
    + intros a a' _ Hstep [Hreach Hle].
      split; [by apply (reach_step c loaded a), orderlyStep_step|].
      rewrite <- (reachable_conf c loaded a Hreach).
      apply (orderlyStep_ceiling a a'); [done..|].
      by rewrite (reachable_conf c loaded a Hreach).
  - intros a a' E Hge. destruct (jobQueueLock a) eqn:Hlock.
    { unfold admitTick in E. by rewrite Hlock in E. }
    rewrite admitTick_full in E by done. by injection E as <-.
  - intros a itemID data a' E.
    apply applyTableUpdate_finish in E as (_ & cur & Hcur & Hjl).
    unfold numOfUnfinishedJobs. rewrite Hjl.
    by apply countUnfinished_insert_finished.
Qed.

(** *** [LastUnfinishedJobOfType] *)

Lemma wanted_test corpusID jobType j :
  String.eqb (GetCorpus j) corpusID && String.eqb (GetType j) jobType
    && negb (IsFinished j) = true
  ↔ wanted corpusID jobType j.
Proof.
  unfold wanted. rewrite !andb_true_iff, !String.eqb_eq, negb_true_iff. tauto.
Qed.

(** X18.  [LastUnfinishedJobOfType] answers true exactly when the table
    has an unfinished job of the given corpus and type; the job it then
    returns is such a table entry, and no such entry started before
    it. *)
Theorem LastUnfinishedJobOfType_earliest a corpusID jobType :
  (snd (LastUnfinishedJobOfType a corpusID jobType) = true ↔
   ∃ id j, jobList a !! id = Some j ∧ wanted corpusID jobType j) ∧
  (snd (LastUnfinishedJobOfType a corpusID jobType) = true ↔
   is_Some (fst (LastUnfinishedJobOfType a corpusID jobType))) ∧
  (∀ j, fst (LastUnfinishedJobOfType a corpusID jobType) = Some j →
     (∃ id, jobList a !! id = Some j) ∧
     wanted corpusID jobType j ∧
     ∀ id' j', jobList a !! id' = Some j' → wanted corpusID jobType j' →
               GetStartDT j ≤ GetStartDT j').
Proof.
  unfold LastUnfinishedJobOfType. simpl.
  set (body := fun (_ : string) (v : J) (tmp : option J) =>
                 if String.eqb (GetCorpus v) corpusID
                    && String.eqb (GetType v) jobType
                    && negb (IsFinished v)
                    && match tmp with
                       | None => true
                       | Some t => GetStartDT v <? GetStartDT t
                       end
                 then Some v else tmp).
  assert ((map_fold body None (jobList a) = None →
           ∀ id j, jobList a !! id = Some j → ¬ wanted corpusID jobType j) ∧
          (∀ j, map_fold body None (jobList a) = Some j →
             (∃ id, jobList a !! id = Some j) ∧
             wanted corpusID jobType j ∧
             ∀ id' j', jobList a !! id' = Some j' → wanted corpusID jobType j' →
                       GetStartDT j ≤ GetStartDT j')) as [Hnone Hsome].
  { apply (map_fold_weak_ind
             (fun r m =>
                (r = None → ∀ id j, m !! id = Some j → ¬ wanted corpusID jobType j) ∧
                (∀ j, r = Some j →
                   (∃ id, m !! id = Some j) ∧ wanted corpusID jobType j ∧
                   ∀ id' j', m !! id' = Some j' → wanted corpusID jobType j' →
                             GetStartDT j ≤ GetStartDT j'))).
    - split; [|done]. intros _ id j Hj. by rewrite lookup_empty in Hj.
    - intros i v m r Hi [IHnone IHsome]. unfold body.
      destruct (String.eqb (GetCorpus v) corpusID
                && String.eqb (GetType v) jobType
                && negb (IsFinished v)) eqn:Hw; simpl.
      + apply wanted_test in Hw.
        destruct r as [t|].
        * destruct (IHsome t eq_refl) as ((idt & Ht) & Hwt & Hmin).
          destruct (Z.ltb_spec (GetStartDT v) (GetStartDT t)) as [Hlt|Hge].
          -- split; [done|]. intros j [= <-]. split_and!; [|done|].
             ++ exists i. apply lookup_insert_eq.
             ++ intros id' j' Hj' Hw'.
                destruct (decide (i = id')) as [->|Hne].
                ** rewrite lookup_insert_eq in Hj'. injection Hj' as <-. lia.
                ** rewrite lookup_insert_ne in Hj' by done.
                   specialize (Hmin id' j' Hj' Hw'). lia.
          -- split; [done|]. intros j [= <-]. split_and!; [|done|].
             ++ exists idt. rewrite lookup_insert_ne; [done|]. congruence.
             ++ intros id' j' Hj' Hw'.
                destruct (decide (i = id')) as [->|Hne].
                ** rewrite lookup_insert_eq in Hj'. injection Hj' as <-. lia.
                ** rewrite lookup_insert_ne in Hj' by done.
                   by apply (Hmin id' j').
        * split; [done|]. intros j [= <-]. split_and!; [|done|].
          -- exists i. apply lookup_insert_eq.
          -- intros id' j' Hj' Hw'.
             destruct (decide (i = id')) as [->|Hne].
             ++ rewrite lookup_insert_eq in Hj'. injection Hj' as <-. lia.
             ++ rewrite lookup_insert_ne in Hj' by done.
                by destruct (IHnone eq_refl id' j' Hj').
      + assert (¬ wanted corpusID jobType v) as Hnw.
        { intros Hv%wanted_test. congruence. }
        split.
        * intros Hr id j Hj.
          destruct (decide (i = id)) as [->|Hne].
          -- rewrite lookup_insert_eq in Hj. by injection Hj as <-.
          -- rewrite lookup_insert_ne in Hj by done. by apply (IHnone Hr id).
        * intros j Hr. destruct (IHsome j Hr) as ((idj & Hj) & Hwj & Hmin).
          split_and!; [|done|].
          -- exists idj. rewrite lookup_insert_ne; [done|]. congruence.
          -- intros id' j' Hj' Hw'.
             destruct (decide (i = id')) as [->|Hne].
             ++ rewrite lookup_insert_eq in Hj'. by injection Hj' as <-.
             ++ rewrite lookup_insert_ne in Hj' by done.
                by apply (Hmin id' j'). }
  split_and!.
  - rewrite bool_decide_eq_true. split.
    + intros [j Hj]. destruct (Hsome j Hj) as ((id & Hid) & Hw & _). eauto.
    + intros (id & j & Hj & Hw).
      destruct (map_fold body None (jobList a)) as [t|] eqn:E; [eauto|].
      by destruct (Hnone eq_refl id j Hj).
  - apply bool_decide_eq_true.
  - exact Hsome.
Qed.

(** *** The notification roster *)

Lemma registered_elem address recipients :
  existsb (fun addr => String.eqb addr address) recipients = true
  ↔ address ∈ recipients.
Proof.
  induction recipients as [|addr recipients IH]; simpl.
  - split; [done|]. by intros ?%elem_of_nil.
  - rewrite orb_true_iff, IH, String.eqb_eq, elem_of_cons. split.
    + intros [->|]; auto.
    + intros [->|]; auto.
Qed.

Lemma registered_not_elem address recipients :
  existsb (fun addr => String.eqb addr address) recipients = false
  ↔ address ∉ recipients.
Proof.
  rewrite <- registered_elem.
  destruct (existsb _ recipients); split; congruence.
Qed.

Lemma removeFirst_other address recipients other :
  other ≠ address →
  (other ∈ removeFirst address recipients ↔ other ∈ recipients).
Proof.
  intros Hne. induction recipients as [|addr recipients IH]; simpl; [done|].
  destruct (String.eqb_spec addr address) as [->|Hne'].
  - rewrite elem_of_cons. split; [auto|]. by intros [?|?].
  - by rewrite !elem_of_cons, IH.
Qed.

Lemma removeFirst_sub address recipients x :
  x ∈ removeFirst address recipients → x ∈ recipients.
Proof.
  induction recipients as [|addr recipients IH]; simpl; [done|].
  destruct (String.eqb addr address).
  - intros ?. apply elem_of_cons. by right.
  - rewrite !elem_of_cons. intros [->|?]; auto.
Qed.

Lemma removeFirst_NoDup address recipients :
  NoDup recipients →
  NoDup (removeFirst address recipients) ∧
  address ∉ removeFirst address recipients.
Proof.
  induction 1 as [|addr recipients Hnin Hnd IH]; simpl.
  - split; [constructor | apply not_elem_of_nil].
  - destruct (String.eqb_spec addr address) as [->|Hne]; [done|].
    destruct IH as [IH1 IH2]. split.
    + constructor; [|done]. intros Hin. by apply Hnin, (removeFirst_sub address).
    + rewrite not_elem_of_cons. split; [congruence | done].
Qed.

Lemma rosterReachable_NoDup (recipientsOf : gmap string (list string)) :
  rosterReachable (J := J) recipientsOf →
  ∀ jobID recipients, recipientsOf !! jobID = Some recipients → NoDup recipients.
Proof.
  induction 1 as [|jl recipientsOf jobID address _ IH
                  |jl recipientsOf jobID address _ IH]; intros id l.
  - by rewrite lookup_empty.
  - unfold AddNotification. destruct (FindJob jl jobID); [|apply IH]. simpl.
    destruct (decide (jobID = id)) as [->|Hne];
      [|rewrite lookup_insert_ne by done; apply IH].
    rewrite lookup_insert_eq. intros [= <-].
    destruct (recipientsOf !! id) as [recipients|] eqn:E;
      [|apply NoDup_singleton].
    destruct (existsb _ recipients) eqn:Hreg; [by apply (IH id)|].
    apply registered_not_elem in Hreg.
    apply NoDup_app. split; [by apply (IH id)|]. split.
    + intros x Hx ->%list_elem_of_singleton. done.
    + apply NoDup_singleton.
  - unfold RemoveNotification. destruct (FindJob jl jobID); [|apply IH]. simpl.
    destruct (recipientsOf !! jobID) as [recipients|] eqn:E; [|apply IH].
    destruct (decide (jobID = id)) as [->|Hne];
      [|rewrite lookup_insert_ne by done; apply IH].
    rewrite lookup_insert_eq. intros [= <-].
    by apply removeFirst_NoDup, (IH id).
Qed.

(** X19.  After [AddNotification] for a job that [FindJob] finds,
    [CheckNotification] for the same job and address answers 200 with
    registered true; addresses registered before stay registered, the
    rosters of other jobs are untouched, and adding the same address
    again changes nothing. *)
Theorem AddNotification_registers jl recipientsOf jobID address job :
  FindJob jl jobID = Some job →
  snd (AddNotification jl recipientsOf jobID address) = RespRegistered 200 true ∧
  CheckNotification jl (fst (AddNotification jl recipientsOf jobID address))
    jobID address = RespRegistered 200 true ∧
  (∀ other,
     CheckNotification jl recipientsOf jobID other = RespRegistered 200 true →
     CheckNotification jl (fst (AddNotification jl recipientsOf jobID address))
       jobID other = RespRegistered 200 true) ∧
  (∀ otherID, otherID ≠ jobID →
     fst (AddNotification jl recipientsOf jobID address) !! otherID =
     recipientsOf !! otherID) ∧
  fst (AddNotification jl (fst (AddNotification jl recipientsOf jobID address))
         jobID address) =
  fst (AddNotification jl recipientsOf jobID address).
Proof.
  intros Hjob. unfold AddNotification, CheckNotification. rewrite !Hjob. simpl.
  rewrite !lookup_insert_eq.
  set (new := match recipientsOf !! jobID with
              | Some recipients =>
                  if existsb (fun addr => String.eqb addr address) recipients
                  then recipients else recipients ++ [address]
              | None => [address]
              end).
  assert (address ∈ new) as Hin.
  { unfold new.
    destruct (recipientsOf !! jobID) as [recipients|];
      [|by apply list_elem_of_singleton].
    destruct (existsb _ recipients) eqn:E; [by apply registered_elem|].
    apply elem_of_app. right. by apply list_elem_of_singleton. }
  assert (∀ other, other ∈ default [] (recipientsOf !! jobID) → other ∈ new)
    as Hmono.
  { intros other. unfold new.
    destruct (recipientsOf !! jobID) as [recipients|]; simpl;
      [|by intros ?%elem_of_nil].
    destruct (existsb _ recipients); [done|].
    intros Ho. apply elem_of_app. by left. }
  split_and!.
  - done.
  - by rewrite (proj2 (registered_elem address new) Hin).
  - intros other Hother.
    assert (other ∈ default [] (recipientsOf !! jobID)) as Ho.
    { destruct (recipientsOf !! jobID) as [recipients|]; [|done]. simpl.
      apply registered_elem.
      by destruct (existsb (fun addr => String.eqb addr other) recipients). }
    by rewrite (proj2 (registered_elem other new) (Hmono other Ho)).
  - intros otherID Hne. by rewrite lookup_insert_ne.
  - rewrite (proj2 (registered_elem address new) Hin).
    by rewrite insert_insert_eq.
Qed.

(** X20.  On a roster built by [AddNotification] and [RemoveNotification]
    no address is listed twice for a job, and after [RemoveNotification]
    for a job that [FindJob] finds, [CheckNotification] for the same job
    and address answers 404 with registered false, while every other
    address is registered exactly if it was before. *)
Theorem RemoveNotification_unregisters jl recipientsOf jobID address job :
  rosterReachable (J := J) recipientsOf →
  FindJob jl jobID = Some job →
  (∀ id recipients, recipientsOf !! id = Some recipients → NoDup recipients) ∧
  snd (RemoveNotification jl recipientsOf jobID address) = RespRegistered 200 false ∧
  CheckNotification jl (fst (RemoveNotification jl recipientsOf jobID address))
    jobID address = RespRegistered 404 false ∧
  (∀ other, other ≠ address →
     CheckNotification jl (fst (RemoveNotification jl recipientsOf jobID address))
       jobID other =
     CheckNotification jl recipientsOf jobID other).
Proof.
  intros Hreach Hjob.
  pose proof (rosterReachable_NoDup recipientsOf Hreach) as Hnd.
  split; [exact Hnd|].
  unfold RemoveNotification, CheckNotification. rewrite !Hjob. simpl.
  destruct (recipientsOf !! jobID) as [recipients|] eqn:E.
  - rewrite !lookup_insert_eq.
    destruct (removeFirst_NoDup address recipients (Hnd jobID recipients E))
      as [_ Hgone].
    split_and!; [done| |].
    + by rewrite (proj2 (registered_not_elem address _) Hgone).
    + intros other Hne.
      destruct (existsb (fun addr => String.eqb addr other) recipients) eqn:Ho.
      * apply registered_elem in Ho.
        by rewrite (proj2 (registered_elem other _)
                      (proj2 (removeFirst_other address recipients other Hne) Ho)).
      * apply registered_not_elem in Ho.
        assert (other ∉ removeFirst address recipients) as Ho'.
        { intros Hin. by apply Ho, (removeFirst_sub address). }
        by rewrite (proj2 (registered_not_elem other _) Ho').
  - rewrite E. done.
Qed.

(** X21.  [AddNotification] files the address under the ID given in the
    request, [GetNotifications] reads the roster under the ID of the job
    that [FindJob] returns: when the two IDs are equal,
    [GetNotifications] after [AddNotification] lists the address. *)
Theorem GetNotifications_after_Add jl recipientsOf jobID address job :
  FindJob jl jobID = Some job →
  GetID job = jobID →
  ∃ recipients,
    GetNotifications jl (fst (AddNotification jl recipientsOf jobID address))
      jobID = RespRecipients 200 recipients ∧
    address ∈ recipients ∧
    (∀ other, other ∈ default [] (recipientsOf !! jobID) → other ∈ recipients).
Proof.
  intros Hjob Hid. unfold GetNotifications, AddNotification. rewrite !Hjob.
  simpl. rewrite Hid, lookup_insert_eq. simpl. eexists. split; [done|].
  destruct (recipientsOf !! jobID) as [recipients|]; simpl.
  - destruct (existsb _ recipients) eqn:E.
    + split; [by apply registered_elem | done].
    + split.
      * apply elem_of_app. right. by apply list_elem_of_singleton.
      * intros other Ho. apply elem_of_app. by left.
  - split; [by apply list_elem_of_singleton|]. by intros other ?%elem_of_nil.
Qed.

End JobsMoreFacts.

Section SubcmixerFacts.
Import Subcmixer.
Context {C O : Type}.
Implicit Types (e item : AbstractExpression C O).

Lemma collectAtomsRecursive_shape :
  ∀ e, collectAtomsRecursive e = [] ∨
       ∃ c, collectAtomsRecursive e = [AnyCategoryRef c].
Proof.
  fix IH 1. intros [Items Op|c|o].
  - destruct Items as [|item rest]; simpl; [by left|]. apply IH.
  - right. by exists c.
  - by left.
Qed.

(** X22.  [GetAtoms] returns at most one element and never a category
    expression: every element of its result is nil.  Only the first
    item of a join is descended into, so the result does not depend on
    the other items or on the operator, and it is empty for a join
    without items. *)
Theorem GetAtoms_yields_no_atom (Items : list (AbstractExpression C O)) Op :
  (length (GetAtoms Items Op) ≤ 1)%nat ∧
  (∀ x, x ∈ GetAtoms Items Op → x = None) ∧
  (∀ item rest rest' Op',
     Items = item :: rest → GetAtoms Items Op = GetAtoms (item :: rest') Op') ∧
  (Items = [] → GetAtoms Items Op = []).
Proof.
  split_and!.
  - unfold GetAtoms.
    destruct (collectAtomsRecursive_shape (JoinExpr Items Op)) as [E|[c E]];
      rewrite E; simpl; lia.
  - unfold GetAtoms.
    destruct (collectAtomsRecursive_shape (JoinExpr Items Op)) as [E|[c E]];
      rewrite E; simpl.
    + by intros x ?%elem_of_nil.
    + by intros x ->%list_elem_of_singleton.
  - by intros item rest rest' Op' ->.
  - by intros ->.
Qed.

(** X23.  [Negate] keeps the items of a join as they are and changes
    the operator only: "OR" becomes "AND", "AND" becomes "OR", and any
    other operator becomes the empty one.  Negating twice gives the join
    back exactly when its operator is "AND", "OR" or empty. *)
Theorem Negate_twice (Items : list (AbstractExpression C O)) Op :
  (∃ newOp, Negate Items Op = JoinExpr Items newOp ∧
            (Op = "OR" → newOp = "AND") ∧ (Op = "AND" → newOp = "OR") ∧
            (Op ≠ "OR" → Op ≠ "AND" → newOp = "")) ∧
  (negated (Negate Items Op) = Some (JoinExpr Items Op)
   ↔ Op = "AND" ∨ Op = "OR" ∨ Op = "").
Proof.
  unfold Negate. split.
  - eexists. split; [done|].
    destruct (String.eqb_spec Op "OR") as [->|HnOR]; [done|].
    destruct (String.eqb_spec Op "AND") as [->|HnAND]; done.
  - simpl. unfold Negate.
    destruct (String.eqb_spec Op "OR") as [->|HnOR];
      [split; [intros _; auto | intros _; reflexivity]|].
    destruct (String.eqb_spec Op "AND") as [->|HnAND];
      [split; [intros _; auto | intros _; reflexivity]|].
    simpl. split.
    + intros Heq. injection Heq as <-. auto.
    + intros [?|[?| ->]]; done.
Qed.

End SubcmixerFacts.

Section NgramsFacts.
Import Jobs Ngrams.
Context `{!TagsetOps}.

Lemma size_list_to_set_NoDup (l : list Z) :
  (size (list_to_set l : gset Z) ≤ length l)%nat ∧
  (size (list_to_set l : gset Z) = length l ↔ NoDup l).
Proof.
  induction l as [|x l [IHle IHeq]].
  - rewrite list_to_set_nil, size_empty. simpl.
    split; [lia|]. split; [constructor | done].
  - rewrite list_to_set_cons. simpl length.
    destruct (decide (x ∈ l)) as [Hin|Hnin].
    + rewrite subseteq_union_1_L
        by (apply singleton_subseteq_l; by apply elem_of_list_to_set).
      split; [lia|]. rewrite NoDup_cons. split; [lia | tauto].
    + rewrite size_union
        by (apply disjoint_singleton_l; by rewrite elem_of_list_to_set).
      rewrite size_singleton, NoDup_cons. split; [lia|].
      rewrite <- IHeq. split; [intros; split; [done | lia] | intros [_ ?]; lia].
Qed.

Lemma increment_dom k (tmp : gmap Z Z) :
  dom (increment k tmp) = {[k]} ∪ dom tmp.
Proof. unfold increment. apply dom_insert_L. Qed.

(** X24.  [Validate] accepts its arguments exactly when the tagset is
    valid and, if a column mapping is given, lemma, sublemma, word and
    tag are mapped to four different columns; an invalid tagset is
    reported before the column mapping is looked at. *)
Theorem Validate_accepts args :
  (Validate args = None ↔
   tagsetValidate (PosTagset args) = None ∧
   ∀ cm, ColMapping args = Some cm →
         NoDup [Lemma_ cm; Sublemma cm; Word cm; Tag cm]) ∧
  (∀ err, tagsetValidate (PosTagset args) = Some err →
          Validate args = Some ("failed to validate tagset: " +:+ err)).
Proof.
  unfold Validate. split.
  2: { by intros err ->. }
  destruct (tagsetValidate (PosTagset args)) as [err|].
  { split; [done|]. by intros [? _]. }
  destruct (ColMapping args) as [[l s w t]|]; [|by split; [split|]].
  simpl.
  set (tmp := increment t (increment w (increment s (increment l ∅)))).
  assert (size tmp = size (list_to_set [t; w; s; l] : gset Z)) as Hsize.
  { rewrite <- size_dom. unfold tmp. rewrite !increment_dom, dom_empty_L.
    done. }
  destruct (size_list_to_set_NoDup [t; w; s; l]) as [Hle Heq].
  simpl length in Hle, Heq. rewrite <- Hsize in Hle, Heq.
  assert (NoDup [t; w; s; l] ↔ NoDup [l; s; w; t]) as Hrev.
  { rewrite !NoDup_cons, !not_elem_of_cons.
    pose proof (not_elem_of_nil l). pose proof (not_elem_of_nil s).
    pose proof (not_elem_of_nil w). pose proof (not_elem_of_nil t).
    pose proof (@NoDup_nil_2 Z).
    split; intros; split_and!; try done; intuition congruence. }
  destruct (Nat.ltb_spec (size tmp) 4) as [Hlt|Hge].
  - split; [done|]. intros [_ Hnd]. specialize (Hnd _ eq_refl). simpl in Hnd.
    apply Hrev, Heq in Hnd. lia.
  - split; [|done]. intros _. split; [done|]. intros cm [= <-]. simpl.
    apply Hrev, Heq. lia.
Qed.

End NgramsFacts.

Section BibGroupingFacts.
Import BibGrouping.
Local Open Scope Z_scope.

Lemma wrapInt_small x : - 2 ^ 63 ≤ x < 2 ^ 63 → wrapInt x = x.
Proof.
  intros H. unfold wrapInt. rewrite Z.mod_small by lia. lia.
Qed.

Lemma wrapInt_double x : wrapInt (wrapInt x + wrapInt x) = wrapInt (2 * x).
Proof.
  unfold wrapInt. f_equal.
  pose proof (Z.div_mod (x + 2 ^ 63) (2 ^ 64) ltac:(lia)) as Hdm.
  set (q := (x + 2 ^ 63) / 2 ^ 64) in *.
  set (r := (x + 2 ^ 63) mod 2 ^ 64) in *.
  replace (r - 2 ^ 63 + (r - 2 ^ 63) + 2 ^ 63)
    with (2 * x + 2 ^ 63 + (- 2 * q) * 2 ^ 64) by lia.
  apply Z_mod_plus_full.
Qed.

Lemma groupItem_other grouping item l :
  Label item ≠ l → groupItem grouping item !! l = grouping !! l.
Proof.
  intros Hne. unfold groupItem.
  destruct (grouping !! Label item) as [val|]; simpl;
    rewrite lookup_insert_eq;
    repeat (case_match; simplify_eq);
    by rewrite ?lookup_insert_ne by done.
Qed.

Lemma groupItem_fresh grouping item :
  grouping !! Label item = None → Grouping item = 1 →
  groupItem grouping item !! Label item = Some item.
Proof.
  intros Hnone Hone. unfold groupItem. rewrite Hnone, lookup_insert_eq, Hone.
  simpl. apply lookup_insert_eq.
Qed.

Lemma groupItem_again grouping item val :
  grouping !! Label item = Some val →
  1 < wrapInt (Grouping val + 1) →
  groupItem grouping item !! Label item =
    Some (mkListedValue ("@" +:+ Label val) (ShortLabel val) (Label val)
            (wrapInt (Count val + Count val)) (wrapInt (Grouping val + 1))).
Proof.
  intros Hval Hgt. unfold groupItem. rewrite Hval, lookup_insert_eq. simpl.
  rewrite (proj2 (Z.gtb_lt _ _)) by done. apply lookup_insert_eq.
Qed.

Lemma grouping_lookup (items : list ListedValue) l :
  Forall (fun v => Grouping v = 1) items →
  Z.of_nat (length items) < 2 ^ 63 →
  foldl groupItem ∅ items !! l =
  groupedEntry (filter (fun v => Label v = l) items).
Proof.
  assert (2 ^ 63 = 9223372036854775808) as Hpow by reflexivity.
  induction items as [|item items IH] using rev_ind; intros Hone Hlen.
  - simpl. by rewrite lookup_empty.
  - apply Forall_app in Hone as [Hone Hitem].
    rewrite Forall_singleton in Hitem.
    rewrite length_app in Hlen. simpl in Hlen.
    specialize (IH Hone ltac:(lia)).
    rewrite foldl_snoc, filter_app.
    destruct (decide (Label item = l)) as [Hl|Hne].
    2: { rewrite groupItem_other by done. rewrite IH.
         rewrite filter_cons, decide_False by done.
         by rewrite filter_nil, app_nil_r. }
    rewrite filter_cons, decide_True by done. rewrite filter_nil.
    subst l.
    assert (Z.of_nat (length (filter (fun v => Label v = Label item) items))
            ≤ Z.of_nat (length items)) as Hflen.
    { apply inj_le, length_filter. }
    assert (∀ first, first ∈ filter (fun v => Label v = Label item) items →
                     Label first = Label item ∧ Grouping first = 1) as Hfirst.
    { intros first [Hlab Hin]%list_elem_of_filter. split; [done|].
      by apply (proj1 (Forall_forall _ _) Hone). }
    destruct (filter (fun v => Label v = Label item) items)
      as [|first further] eqn:E.
    + simpl. simpl in IH. by apply groupItem_fresh.
    + destruct (Hfirst first ltac:(by left)) as [Hlab Hg1].
      destruct further as [|second further].
      * simpl in IH. simpl.
        rewrite (groupItem_again _ item first IH).
        2: { rewrite Hg1. rewrite wrapInt_small by lia. lia. }
        rewrite Hg1, (wrapInt_small (1 + 1)) by lia.
        do 2 f_equal. f_equal. lia.
      * simpl in IH. simpl in Hflen.
        change ((first :: second :: further) ++ [item])
          with (first :: second :: (further ++ [item])).
        simpl groupedEntry. rewrite length_app. simpl length.
        rewrite (groupItem_again _ item _ IH); simpl.
        2: { rewrite wrapInt_small by lia. lia. }
        rewrite (wrapInt_small (1 + Z.of_nat (S (length further)) + 1)) by lia.
        rewrite wrapInt_double.
        do 2 f_equal.
        -- f_equal.
           replace (Z.of_nat (S (length further + 1)))
             with (Z.succ (Z.of_nat (S (length further)))) by lia.
           rewrite Z.pow_succ_r by lia. lia.
        -- lia.
Qed.

Lemma grouping_label (items : list ListedValue) l v :
  groupedEntry (filter (fun v => Label v = l) items) = Some v → Label v = l.
Proof.
  intros H.
  assert (∀ first, first ∈ filter (fun v => Label v = l) items → Label first = l)
    as Hfirst by (by intros first [? _]%list_elem_of_filter).
  destruct (filter (fun v => Label v = l) items) as [|first [|second further]];
    [done| |]; simpl in H; injection H as <-; simpl; apply Hfirst; by left.
Qed.

Lemma values_elem (grouping : gmap string ListedValue) v :
  v ∈ map_fold (fun _ v entry => entry ++ [v]) [] grouping ↔
  ∃ l, grouping !! l = Some v.
Proof.
  apply (map_fold_weak_ind
           (fun r m => v ∈ r ↔ ∃ l, m !! l = Some v)).
  - split; [by intros ?%elem_of_nil|]. intros [l Hl].
    by rewrite lookup_empty in Hl.
  - intros l x m r Hl IH. rewrite elem_of_app, list_elem_of_singleton, IH.
    split.
    + intros [[l' Hl']| ->].
      * exists l'. rewrite lookup_insert_ne; [done|]. congruence.
      * exists l. apply lookup_insert_eq.
    + intros [l' Hl']. destruct (decide (l = l')) as [->|Hne].
      * rewrite lookup_insert_eq in Hl'. injection Hl' as ->. by right.
      * rewrite lookup_insert_ne in Hl' by done. left. eauto.
Qed.

Lemma values_labels_NoDup (grouping : gmap string ListedValue) :
  (∀ l v, grouping !! l = Some v → Label v = l) →
  NoDup (Label <$> map_fold (fun _ v entry => entry ++ [v]) [] grouping).
Proof.
  apply (map_fold_weak_ind
           (fun r m => (∀ l v, m !! l = Some v → Label v = l) →
                       NoDup (Label <$> r) ∧
                       ∀ v, v ∈ r → ∃ l, m !! l = Some v)).
  - intros _. split; [constructor|]. by intros v ?%elem_of_nil.
  - intros l x m r Hl IH Hlab.
    destruct IH as [IHnd IHin].
    { intros l' v' Hv'. apply Hlab. rewrite lookup_insert_ne; [done|].
      congruence. }
    split.
    + rewrite fmap_app. apply NoDup_app. split; [done|]. split.
      * intros lab Hlabin Hx. simpl in Hx.
        apply list_elem_of_singleton in Hx.
        apply list_elem_of_fmap in Hlabin as (v & -> & Hv).
        destruct (IHin v Hv) as [l' Hl'].
        assert (Label v = l') as Hvl.
        { apply Hlab. rewrite lookup_insert_ne; [done|]. congruence. }
        assert (Label x = l) as Hxl by (apply Hlab, lookup_insert_eq).
        congruence.
      * simpl. apply NoDup_singleton.
    + intros v [Hv| ->%list_elem_of_singleton]%elem_of_app.
      * destruct (IHin v Hv) as [l' Hl']. exists l'.
        rewrite lookup_insert_ne; [done|]. congruence.
      * exists l. apply lookup_insert_eq.
Qed.

(** X25.  For items that all come with grouping 1, [groupBibItems]
    replaces the list at [bibLabel] by one item per label: a label
    borne by a single item keeps that item; a label borne by n > 1
    items gets the first of them with ID "@" plus the label, grouping n,
    and the count of the first item doubled n - 1 times (wrapping as a
    64-bit integer); the counts of the further items are not added.
    Other entries of the map stay, and a map whose entry at [bibLabel]
    is no such list is left as it is. *)
Theorem groupBibItems_groups (AttrValues : gmap string attrValue) bibLabel :
  (∀ items,
     AttrValues !! bibLabel = Some (ListedValues items) →
     Forall (fun v => Grouping v = 1) items →
     Z.of_nat (length items) < 2 ^ 63 →
     ∃ out,
       groupBibItems AttrValues bibLabel !! bibLabel = Some (ListedValues out) ∧
       (∀ v, v ∈ out ↔
             ∃ l, groupedEntry (filter (fun x => Label x = l) items) = Some v) ∧
       NoDup (Label <$> out) ∧
       (∀ other, other ≠ bibLabel →
          groupBibItems AttrValues bibLabel !! other = AttrValues !! other)) ∧
  ((∀ items, AttrValues !! bibLabel ≠ Some (ListedValues items)) →
   groupBibItems AttrValues bibLabel = AttrValues).
Proof.
  split.
  - intros items Hentry Hone Hlen. unfold groupBibItems. rewrite Hentry.
    eexists. split; [apply lookup_insert_eq|]. split_and!.
    + intros v. rewrite values_elem.
      by setoid_rewrite (fun l => grouping_lookup items l Hone Hlen).
    + apply values_labels_NoDup. intros l v.
      rewrite (grouping_lookup items l Hone Hlen). apply grouping_label.
    + intros other Hne. by rewrite lookup_insert_ne.
  - intros Hno. unfold groupBibItems.
    destruct (AttrValues !! bibLabel) as [[items| |]|] eqn:E; try done.
    by destruct (Hno items).
Qed.

End BibGroupingFacts.

(** ** The further properties on concrete inputs *)

Section MoreConcrete.
Import Cache CacheIndex Jobs JobsMore Examples MoreExamples.
Local Open Scope Z_scope.

Lemma Set_then_Get_witness :
  Get csEnDe "cs" (noFilter ["en"; "de"]) = Some 7%nat ∧
  Set_ csEnDe "cs" (filtered ["en"; "de"]) (Some 8%nat) = csEnDe.
Proof.
  split.
  - apply (Set_then_Get freshCache "cs" (noFilter ["en"; "de"]) (Some 7%nat)).
    reflexivity.
  - apply (Set_then_Get csEnDe "cs" (filtered ["en"; "de"]) (Some 8%nat)).
    vm_compute. discriminate.
Defined.

Lemma mkKey_injective_witness :
  mkKey "cs" ["en"; "de"] ≠ mkKey "cs" ["de"; "en"].
Proof.
  intros Hkey.
  destruct (mkKey_injective "cs" ["en"; "de"] "cs" ["de"; "en"]) as [_ Heq].
  - reflexivity.
  - repeat constructor.
  - reflexivity.
  - repeat constructor.
  - exact Hkey.
  - discriminate Heq.
Defined.

Lemma Set_keeps_other_keys_witness :
  Get (Set_ csEnDe "cs" (noFilter ["pl"]) (Some 9%nat)) "cs" (noFilter ["en"; "de"])
  = Some 7%nat.
Proof.
  rewrite (Set_keeps_other_keys csEnDe "cs" (noFilter ["pl"]) (Some 9%nat)
             "cs" (noFilter ["en"; "de"])).
  - vm_compute. reflexivity.
  - vm_compute. discriminate.
Defined.

Lemma Del_without_bucket_witness :
  Del csEnDe "pl" = csEnDe ∧
  Del (Del csEnDe "de") "de" = Del csEnDe "de".
Proof.
  destruct (Del_without_bucket (QueryAns := nat) csEnDe "pl") as [Hnone _].
  destruct (Del_without_bucket (QueryAns := nat) csEnDe "de") as [_ Htwice].
  split; [|exact Htwice]. apply Hnone. vm_compute. reflexivity.
Defined.

Lemma Del_keeps_unlisted_witness :
  Get (Del (Set_ csEnDe "pl" (noFilter []) (Some 3%nat)) "de") "pl" (noFilter [])
  = Some 3%nat.
Proof.
  rewrite (Del_keeps_unlisted (AttrVal := string)
             (Set_ csEnDe "pl" (noFilter []) (Some 3%nat)) "de" "pl" (noFilter [])).
  - vm_compute. reflexivity.
  - vm_compute. intros Hin. inversion Hin as [|? ? ? Hin']. inversion Hin'.
Defined.

Lemma reachable_noDangling_witness :
  is_Some (data (Del colonCache "en") !! "en:de:cs").
Proof.
  apply (reachable_noDangling (AttrVal := string) (Del colonCache "en")
           (reach_Del _ "en" (reach_Set _ "cs" (noFilter ["en:de"]) _ reach_new))
           "cs" "en:de:cs").
  eexists. split; [vm_compute; reflexivity | left].
Defined.

Example Del_logged_figure_csEnDe :
  snd (DelLogged csEnDe "de") = 3%nat ∧
  indexSize (corpKeyDeps csEnDe) = 3%nat ∧
  indexSize (corpKeyDeps (Del csEnDe "de")) = 0%nat ∧
  dom (corpKeyDeps (Del csEnDe "de")) = {["cs"; "en"]}.
Proof. split_and!; by vm_compute. Qed.

Lemma enqueued_job_runs_after_tick_witness :
  ∃ a1 a2,
    EnqueueJob recovered 1%nat (job "a") = Done a1 ∧ admitTick a1 = Done a2 ∧
    jobList a2 !! "a" = Some (job "a") ∧
    detachedJobs a2 !! "a" = None ∧
    detachedJobs a2 !! "b" = Some (job "b").
Proof.
  destruct (enqueued_job_runs_after_tick recovered 1%nat (job "a"))
    as (a1 & a2 & Henq & Htick & Hjl & Hdet & _).
  - reflexivity.
  - vm_compute. reflexivity.
  - reflexivity.
  - reflexivity.
  - exists a1, a2. split_and!; [exact Henq|exact Htick| | |].
    + rewrite Hjl. apply lookup_insert_eq.
    + rewrite Hdet. apply lookup_delete_eq.
    + rewrite Hdet. vm_compute. reflexivity.
Defined.

Lemma pump_forwards_in_order_witness :
  fst (pumpRun 3 (chanClose (mkChan "a" [job "a"; AsFinished (job "a")]
                               false None false))) =
  [tableActionUpdateJob "a" (job "a");
   tableActionUpdateJob "a" (AsFinished (job "a"));
   tableActionFinishJob "a" (Some (AsFinished (job "a")))].
Proof.
  destruct (pump_forwards_in_order
              (chanClose (mkChan "a" [job "a"; AsFinished (job "a")]
                            false None false)) 3)
    as (Hevents & _).
  - reflexivity.
  - simpl. lia.
  - exact Hevents.
Defined.

Lemma worker_run_to_finish_witness :
  ∃ a',
    applyTableUpdates (afterTick twoQueued)
      (fst (pumpRun 3 (chanClose (mkChan "a" [job "a"; job "a"] false None false))))
      = Some a' ∧
    jobList a' !! "a" = Some (AsFinished (job "a")).
Proof.
  destruct (worker_run_to_finish (afterTick twoQueued) "a" (job "a")
              [job "a"; job "a"] (job "a"))
    as (a' & Happly & Hjl & _).
  - vm_compute. reflexivity.
  - reflexivity.
  - exists a'. split; [exact Happly|]. rewrite Hjl. apply lookup_insert_eq.
Defined.

Lemma error_sticks_in_table_not_in_deps_witness :
  ∃ a' entry,
    applyTableUpdates (afterTick twoQueued)
      (fst (pumpRun 3
              (chanClose (mkChan "a" [WithError (job "a") "disk full"; job "a"]
                            false None false))))
      = Some a' ∧
    jobList a' !! "a" = Some entry ∧
    GetError entry = Some "disk full" ∧
    jobDeps a' = SetParentFinished (jobDeps (afterTick twoQueued)) "a" false.
Proof.
  destruct (error_sticks_in_table_not_in_deps (afterTick twoQueued) "a"
              (job "a") (WithError (job "a") "disk full") (job "a") "disk full")
    as (a' & entry & Happly & Hentry & _ & Herr & Hdeps).
  - intros j err. reflexivity.
  - intros j. reflexivity.
  - vm_compute. reflexivity.
  - reflexivity.
  - reflexivity.
  - exists a', entry. split_and!; assumption.
Defined.

Lemma admitTick_never_panics_witness :
  admitTick Examples.start = Done Examples.start ∧
  (admitTick (afterTick twoRunning) = Blocked ↔
   jobQueueLock (afterTick twoRunning) = true).
Proof.
  split.
  - destruct (admitTick_never_panics Examples.start) as (_ & _ & Hempty).
    apply Hempty; [reflexivity | by vm_compute | reflexivity].
  - destruct (admitTick_never_panics (afterTick twoRunning)) as (_ & Hblocked & _).
    exact Hblocked.
Defined.

Lemma tick_at_ceiling_keeps_lock_witness :
  ∃ a1 a2,
    admitTick twoRunning = Done a1 ∧
    a2 = applied (applied a1 (tableActionFinishJob "a" (Some (job "a"))))
                 (tableActionUpdateJob "b" (job "b")) ∧
    numOfUnfinishedJobs a2 = 1 ∧
    jobQueueLock a2 = true ∧ admitTick a2 = Blocked ∧
    EnqueueJob a2 4%nat (job "d") = Blocked ∧
    jobQueue a2 = [(3%nat, job "c")].
Proof.
  destruct (tick_at_ceiling_keeps_lock twoRunning) as (a1 & Htick & Hlater).
  - vm_compute. reflexivity.
  - vm_compute. discriminate.
  - assert (a1 = withJobQueueLock twoRunning true) as Ha1.
    { assert (admitTick twoRunning = Done (withJobQueueLock twoRunning true))
        as E by (vm_compute; reflexivity).
      rewrite E in Htick. by injection Htick. }
    exists a1, (applied (applied a1 (tableActionFinishJob "a" (Some (job "a"))))
                        (tableActionUpdateJob "b" (job "b"))).
    destruct (Hlater (applied (applied a1 (tableActionFinishJob "a" (Some (job "a"))))
                              (tableActionUpdateJob "b" (job "b"))))
      as (Hlock & Hblocked & Henq & _ & Hq & _).
    { eapply rtc_l; [|eapply rtc_l; [|apply rtc_refl]].
      - apply (step_finish _ "a" (Some (job "a"))).
        rewrite Ha1. vm_compute. reflexivity.
      - apply (step_update _ "b" (job "b")).
        rewrite Ha1. vm_compute. reflexivity. }
    split_and!; [exact Htick|reflexivity| |exact Hlock|exact Hblocked|apply Henq|].
    + rewrite Ha1. vm_compute. reflexivity.
    + rewrite Hq. vm_compute. reflexivity.
Defined.

Lemma orderly_run_keeps_ceiling_witness :
  numOfUnfinishedJobs
    (afterTick (applied (applied twoRunning (tableActionUpdateJob "a" (job "a")))
                        (tableActionFinishJob "a" (Some (job "a"))))) ≤ 2 ∧
  jobQueue
    (afterTick (applied (applied twoRunning (tableActionUpdateJob "a" (job "a")))
                        (tableActionFinishJob "a" (Some (job "a"))))) = [].
Proof.
  destruct (orderly_run_keeps_ceiling (J := JobInfo) (F := nat) conf2 [])
    as (Hrun & _).
  - intros [id ty corp st err fin nr]. reflexivity.
  - vm_compute. discriminate.
  - split; [|by vm_compute]. apply Hrun.
    eapply rtc_l; [apply (orderly_enqueue _ 1%nat (job "a")); reflexivity|].
    eapply rtc_l; [apply (orderly_enqueue _ 2%nat (job "b")); reflexivity|].
    eapply rtc_l; [apply (orderly_enqueue _ 3%nat (job "c")); reflexivity|].
    eapply rtc_l; [apply orderly_tick; vm_compute; reflexivity|].
    eapply rtc_l; [apply orderly_tick; vm_compute; reflexivity|].
    eapply rtc_l;
      [apply (orderly_update _ "a" (job "a") (job "a"));
       vm_compute; reflexivity|].
    eapply rtc_l;
      [apply (orderly_finish _ "a" (Some (job "a"))); vm_compute; reflexivity|].
    eapply rtc_l; [apply orderly_tick; vm_compute; reflexivity|].
    apply rtc_refl.
Defined.

Lemma Set_Del_Get_misses_witness :
  Get (Del csEnDe "de") "cs" (noFilter ["en"; "de"]) = None ∧
  Get (Del colonCache "en:de") "cs" (noFilter ["en:de"]) = None.
Proof.
  split.
  - apply (Set_Del_Get_misses freshCache "cs" (noFilter ["en"; "de"])
             (Some 7%nat) "de"); [reflexivity | right; left].
  - apply (Set_Del_Get_misses freshCache "cs" (noFilter ["en:de"])
             (Some 1%nat) "en:de"); [reflexivity | left].
Defined.

Lemma reachable_workersOwnChannels_witness :
  workersOwnChannels atCeiling ∧
  workers atCeiling = [(1%nat, 0%nat); (2%nat, 1%nat); (3%nat, 2%nat); (4%nat, 3%nat)] ∧
  chanJob <$> updateChans atCeiling = ["a"; "a"; "b"; "c"].
Proof.
  destruct (reachable_workersOwnChannels conf2 [] atCeiling) as [Hwf _].
  - exact atCeiling_reachable.
  - split_and!; [exact Hwf | by vm_compute | by vm_compute].
Defined.

Lemma ClearDetachedJob_witness :
  snd (ClearDetachedJob recovered "a") = true ∧
  snd (ClearDetachedJob recovered "zz") = false ∧
  length (GetDetachedJobs (fst (ClearDetachedJob recovered "a"))) = 1%nat.
Proof.
  destruct (ClearDetachedJob_reports_and_removes recovered "a")
    as (Hok & _ & _ & Hlen & _).
  destruct (ClearDetachedJob_reports_and_removes recovered "zz")
    as (Hmissing & _).
  assert (snd (ClearDetachedJob recovered "a") = true) as Htrue.
  { apply Hok. eexists. vm_compute. reflexivity. }
  split_and!.
  - exact Htrue.
  - destruct (snd (ClearDetachedJob recovered "zz")) eqn:E; [|reflexivity].
    destruct (proj1 Hmissing eq_refl) as [j Hj]. vm_compute in Hj. discriminate Hj.
  - rewrite Hlen, Htrue. vm_compute. reflexivity.
Defined.

Lemma LastUnfinishedJobOfType_witness :
  LastUnfinishedJobOfType fourJobs "syn2020" "liveattrs"
    = (Some (startedAt "b" 10), true) ∧
  snd (LastUnfinishedJobOfType fourJobs "syn2020" "ngrams") = false.
Proof.
  destruct (LastUnfinishedJobOfType_earliest fourJobs "syn2020" "liveattrs")
    as (_ & _ & Hmin).
  destruct (LastUnfinishedJobOfType_earliest fourJobs "syn2020" "ngrams")
    as (Hany & _).
  split.
  - destruct (LastUnfinishedJobOfType fourJobs "syn2020" "liveattrs")
      as [[j|] ok] eqn:E; vm_compute in E; [|discriminate E].
    destruct (Hmin j eq_refl) as (_ & _ & Hle).
    injection E as <- <-. reflexivity.
  - destruct (snd (LastUnfinishedJobOfType fourJobs "syn2020" "ngrams")) eqn:E;
      [|reflexivity].
    destruct (proj1 Hany eq_refl) as (id & j & _ & _ & Hty & _).
    vm_compute in E. discriminate E.
Defined.

Lemma AddNotification_registers_witness :
  CheckNotification oneJob (fst (AddNotification oneJob ∅ "a" "ann@example.org"))
    "a" "ann@example.org" = RespRegistered 200 true.
Proof.
  destruct (AddNotification_registers oneJob ∅ "a" "ann@example.org" (job "a"))
    as (_ & Hcheck & _).
  - vm_compute. reflexivity.
  - exact Hcheck.
Defined.

Lemma rosterOfA_reachable : rosterReachable (J := JobInfo) rosterOfA.
Proof. apply roster_add, roster_add, roster_new. Defined.

Lemma RemoveNotification_unregisters_witness :
  CheckNotification oneJob
    (fst (RemoveNotification oneJob rosterOfA "a" "ann@example.org"))
    "a" "ann@example.org" = RespRegistered 404 false ∧
  CheckNotification oneJob
    (fst (RemoveNotification oneJob rosterOfA "a" "ann@example.org"))
    "a" "bob@example.org" = RespRegistered 200 true.
Proof.
  destruct (RemoveNotification_unregisters oneJob rosterOfA "a"
              "ann@example.org" (job "a") rosterOfA_reachable)
    as (_ & _ & Hgone & Hother).
  - vm_compute. reflexivity.
  - split; [exact Hgone|]. rewrite Hother by discriminate.
    vm_compute. reflexivity.
Defined.

Lemma GetNotifications_after_Add_witness :
  ∃ recipients,
    GetNotifications oneJob
      (fst (AddNotification oneJob rosterOfA "a" "eve@example.org")) "a"
      = RespRecipients 200 recipients ∧
    "eve@example.org" ∈ recipients.
Proof.
  destruct (GetNotifications_after_Add oneJob rosterOfA "a" "eve@example.org"
              (job "a"))
    as (recipients & Hget & Hin & _).
  - vm_compute. reflexivity.
  - reflexivity.
  - exists recipients. split; assumption.
Defined.

End MoreConcrete.

Section OtherConcrete.
Import Subcmixer Ngrams BibGrouping OtherExamples.
Local Open Scope Z_scope.

Lemma GetAtoms_yields_no_atom_witness :
  GetAtoms twoCategories "AND" = [None] ∧
  GetAtoms twoCategories "AND" = GetAtoms (O := unit) [CategoryExpr 1%nat] "OR".
Proof.
  destruct (GetAtoms_yields_no_atom twoCategories "AND") as (_ & _ & Hfirst & _).
  split; [reflexivity|].
  apply (Hfirst (CategoryExpr 1%nat) [CategoryExpr 2%nat] [] "OR"). reflexivity.
Defined.

Lemma Negate_twice_witness :
  negated (Negate twoCategories "AND") = Some (JoinExpr twoCategories "AND") ∧
  negated (Negate twoCategories "XOR") ≠ Some (JoinExpr twoCategories "XOR").
Proof.
  destruct (Negate_twice twoCategories "AND") as (_ & Hand).
  destruct (Negate_twice twoCategories "XOR") as (_ & Hxor).
  split.
  - apply Hand. left. reflexivity.
  - intros Heq. apply Hxor in Heq as [Heq|[Heq|Heq]]; discriminate Heq.
Defined.

Lemma Validate_accepts_witness :
  Validate (mkReqArgs (Some (mkQSAttributes 1 2 0 3)) "ud") = None ∧
  Validate (mkReqArgs (Some (mkQSAttributes 1 1 0 3)) "ud") ≠ None ∧
  Validate (mkReqArgs (Some (mkQSAttributes 1 1 0 3)) "klingon") =
    Some "failed to validate tagset: unsupported tagset klingon".
Proof.
  destruct (Validate_accepts (mkReqArgs (Some (mkQSAttributes 1 2 0 3)) "ud"))
    as (Hok & _).
  destruct (Validate_accepts (mkReqArgs (Some (mkQSAttributes 1 1 0 3)) "ud"))
    as (Hdup & _).
  destruct (Validate_accepts (mkReqArgs (Some (mkQSAttributes 1 1 0 3)) "klingon"))
    as (_ & Htagset).
  split_and!.
  - apply Hok. split; [reflexivity|]. intros cm [= <-]. simpl.
    repeat constructor; intros Hin;
      repeat (apply elem_of_cons in Hin as [Hin|Hin]; [discriminate Hin|]);
      by apply elem_of_nil in Hin.
  - intros Hnone. apply Hdup in Hnone as [_ Hnd].
    specialize (Hnd _ eq_refl). simpl in Hnd.
    apply NoDup_cons in Hnd as [Hnin _]. apply Hnin. left.
  - apply Htagset. reflexivity.
Defined.

Lemma groupBibItems_groups_witness :
  ∃ out,
    groupBibItems bibValues "doc.title" !! "doc.title" = Some (ListedValues out) ∧
    mkListedValue "@Hamlet" "Hamlet" "Hamlet" 20 3 ∈ out ∧
    listed "f1" "Faust" 7 ∈ out ∧
    groupBibItems bibValues "doc.title" !! "doc.year" = Some (Total 12) ∧
    groupBibItems bibValues "doc.year" = bibValues.
Proof.
  destruct (groupBibItems_groups bibValues "doc.title") as (Hlist & _).
  destruct (groupBibItems_groups bibValues "doc.year") as (_ & Hother).
  destruct (Hlist bibItems) as (out & Hout & Helem & _ & Hrest).
  - vm_compute. reflexivity.
  - repeat constructor.
  - vm_compute. reflexivity.
  - exists out. split_and!.
    + exact Hout.
    + apply Helem. exists "Hamlet". vm_compute. reflexivity.
    + apply Helem. exists "Faust". vm_compute. reflexivity.
    + rewrite Hrest by discriminate. vm_compute. reflexivity.
    + apply Hother. intros items Hitems. vm_compute in Hitems. discriminate Hitems.
Defined.

End OtherConcrete.
